(** * gnmireverse/client: the gNMI reverse bridge

    A shallow embedding of [gnmireverse/client/main.go]: the TLS dial-option
    builder [newTLSConfig], the two sessions [publish] and [subscribe], and
    the retry loop of [main] that runs them as a pair under an errgroup.

    The sessions are goroutines.  Each one is modelled as a transition
    function over its program points (the places where the Go code blocks on
    a library call or on a [select]); the pair is composed by interleaving,
    with the unbuffered channel as a rendezvous between the two [select]s
    and the errgroup context as shared state. *)

From stdpp Require Import base option list gmap strings.

Set Default Proof Using "Type".
Set Warnings "-clear-no-such-hyp".

(** ** Go errors *)

(** The error values the program can see.  [errorString] is what
    [fmt.Errorf] and [errors.New] build; the others come from libraries. *)
Inductive error : Type :=
| errorString (s : string)      (* fmt.Errorf / errors.New *)
| Canceled                      (* context.Canceled *)
| EOF                           (* io.EOF: the peer closed the stream *)
| PathError (op path : string)  (* os.PathError of a failed file read *)
| rpcError (desc : string).     (* a gRPC status error *)

#[global] Instance error_eq_dec : EqDecision error.
Proof. solve_decision. Defined.

(** The [Error() string] method. *)
Definition Error (e : error) : string :=
  match e with
  | errorString s => s
  | Canceled => "context canceled"
  | EOF => "EOF"
  | PathError op path => op +:+ " " +:+ path +:+ ": no such file or directory"
  | rpcError desc => "rpc error: " +:+ desc
  end.

(** [fmt.Errorf(prefix + "%s", err)]: a fresh error that carries the text of
    [err]. *)
Definition Errorf (prefix : string) (err : error) : error :=
  errorString (prefix +:+ Error err).

(** ** Local and network effects of start-up *)

Inductive io_op : Type :=
| ReadFile (filename : string)   (* ioutil.ReadFile / os.ReadFile *)
| Dial (addr : string).          (* grpc.Dial *)

Definition is_network (op : io_op) : bool :=
  match op with Dial _ => true | ReadFile _ => false end.

(** A computation that logs the effects it performs and either fails with a
    Go error or yields a value; a failure stops the log. *)
Definition IO (A : Type) : Type := list io_op * (error + A).

#[global] Instance IO_ret : MRet IO := λ A a, ([], inr a).
#[global] Instance IO_bind : MBind IO := λ A B f m,
  match m.2 with
  | inl err => (m.1, inl err)
  | inr a => (m.1 ++ (f a).1, (f a).2)
  end.

Definition fail {A} (err : error) : IO A := ([], inl err).
Definition effects {A} (m : IO A) : list io_op := m.1.
Definition outcome {A} (m : IO A) : error + A := m.2.

(** The Go view of a result: the pair [(value, err)], each possibly nil. *)
Definition go_result {A} (m : IO A) : option A * option error :=
  match outcome m with
  | inl err => (None, Some err)
  | inr a => (Some a, None)
  end.

(** ** Certificates and files *)

Definition bytes : Type := list Byte.byte.

(** [x509.CertPool] as the DER encodings it holds; [tls.Certificate] as its
    chain and private key. *)
Definition CertPool : Type := list bytes.

Record Certificate : Type := {
  Certificate_chain : list bytes;
  PrivateKey : bytes;
}.

(** What the file system and the certificate parsers of the Go standard
    library answer. *)
Record Env : Type := {
  fs_ReadFile : string → error + bytes;
  x509_AppendCertsFromPEM : CertPool → bytes → CertPool * bool;
  tls_X509KeyPair : bytes → bytes → error + Certificate;
}.

Definition NewCertPool : CertPool := [].

Definition readFile (env : Env) (filename : string) : IO bytes :=
  ([ReadFile filename], fs_ReadFile env filename).

(** [tls.LoadX509KeyPair]: read both files, then pair them. *)
Definition LoadX509KeyPair (env : Env) (certFile keyFile : string)
    : IO Certificate :=
  certPEMBlock ← readFile env certFile;
  keyPEMBlock ← readFile env keyFile;
  ([], tls_X509KeyPair env certPEMBlock keyPEMBlock).

(** [tls.Config], the fields the builder touches. *)
Record tls_Config : Type := {
  InsecureSkipVerify : bool;
  RootCAs : option CertPool;           (* nil: the host's root CA set *)
  Certificates : list Certificate;
}.

Definition tls_Config_zero : tls_Config :=
  {| InsecureSkipVerify := false; RootCAs := None; Certificates := [] |}.

Inductive DialOption : Type :=
| WithInsecure
| WithTransportCredentials (creds : tls_Config).  (* credentials.NewTLS *)

(** ** [newTLSConfig] (main.go, lines 52-82) *)
Definition newTLSConfig (env : Env) (useTLS skipVerify : bool)
    (certFile keyFile caFile : string) : IO DialOption :=
  if negb useTLS then mret WithInsecure
  else
    let tlsConfig := tls_Config_zero in
    tlsConfig ←
      (if skipVerify then
         mret {| InsecureSkipVerify := true;
                 RootCAs := RootCAs tlsConfig;
                 Certificates := Certificates tlsConfig |}
       else if bool_decide (caFile ≠ "") then
         b ← readFile env caFile;
         let '(cp, ok) := x509_AppendCertsFromPEM env NewCertPool b in
         if negb ok then
           fail (errorString "credentials: failed to append certificates")
         else
           mret {| InsecureSkipVerify := InsecureSkipVerify tlsConfig;
                   RootCAs := Some cp;
                   Certificates := Certificates tlsConfig |}
       else mret tlsConfig);
    tlsConfig ←
      (if bool_decide (certFile ≠ "") then
         if bool_decide (keyFile = "") then
           fail (errorString
             "please provide both -collector_certfile and -collector_keyfile")
         else
           cert ← LoadX509KeyPair env certFile keyFile;
           mret {| InsecureSkipVerify := InsecureSkipVerify tlsConfig;
                   RootCAs := RootCAs tlsConfig;
                   Certificates := [cert] |}
       else mret tlsConfig);
    mret (WithTransportCredentials tlsConfig).

(** [grpc.Dial]: the connection object remembers where and how to dial. *)
Record ClientConn : Type := {
  cc_target : string;
  cc_option : DialOption;
}.

Definition grpc_Dial (dial : string → DialOption → option error)
    (addr : string) (opt : DialOption) : IO ClientConn :=
  ([Dial addr],
   match dial addr opt with
   | Some err => inl err
   | None => inr {| cc_target := addr; cc_option := opt |}
   end).

(** ** gNMI messages (package gnmi of openconfig): the fields the client
    sets; every other protobuf field stays at its zero value. *)

Record PathElem : Type := {
  Name : string;
  Key : gmap string string;
}.

Record Path : Type := {
  Origin : string;
  Elem : list PathElem;
  Target : string;
}.

Inductive SubscriptionMode : Type :=
| SubscriptionMode_TARGET_DEFINED
| SubscriptionMode_ON_CHANGE
| SubscriptionMode_SAMPLE.

Record Subscription : Type := {
  Subscription_Path : option Path;      (* a *gnmi.Path *)
  Mode : SubscriptionMode;
}.

Record SubscriptionList : Type := {
  Prefix : option Path;                 (* a *gnmi.Path *)
  Subscription_ : list Subscription;
}.

Inductive SubscribeRequest : Type :=
| SubscribeRequest_Subscribe (Subscribe : SubscriptionList)
| SubscribeRequest_Poll.

(** ** The [-subscribe] flag (main.go, lines 27-50) *)

Record multiPath : Type := { p : list Path }.

(** [Set]: parse one flag value and append it.  [parse] stands for
    [gnmilib.ParseGNMIElements(gnmilib.SplitPath(s))]. *)
Definition multiPath_Set (parse : string → error + Path)
    (m : multiPath) (s : string) : multiPath * option error :=
  match parse s with
  | inl err => (m, Some err)
  | inr gnmiPath => ({| p := p m ++ [gnmiPath] |}, None)
  end.

(** ** Call contexts and request metadata *)

Abbreviation MD := (gmap string (list string)).

(** [metadata.Pairs(k1, v1, k2, v2, ...)]; the keys the client passes are
    already lower case. *)
Fixpoint Pairs_into (md : MD) (kv : list string) : MD :=
  match kv with
  | k :: v :: kv' => Pairs_into (<[k := default [] (md !! k) ++ [v]]> md) kv'
  | _ => md
  end.

Definition Pairs (kv : list string) : MD := Pairs_into ∅ kv.

(** A [context.Context] as a call sees it: the cancellation scope it belongs
    to and the outgoing metadata it carries.  Whether the scope is cancelled
    is shared state, kept in the iteration. *)
Record Context : Type := {
  scope : nat;
  outgoing : option MD;
}.

Definition NewOutgoingContext (ctx : Context) (md : MD) : Context :=
  {| scope := scope ctx; outgoing := Some md |}.

(** ** [subscribe]: the request it builds (main.go, lines 170-186) *)

Definition subscribe_request (target : string) (paths : list Path)
    : SubscribeRequest :=
  let subList := {| Prefix := Some {| Origin := ""; Elem := [];
                                      Target := target |};
                    Subscription_ := [] |} in
  let subList :=
    foldl (λ subList p,
             {| Prefix := Prefix subList;
                Subscription_ := Subscription_ subList ++
                  [{| Subscription_Path := Some p;
                      Mode := SubscriptionMode_TARGET_DEFINED |}] |})
          subList paths in
  SubscribeRequest_Subscribe subList.

(** The context [subscribe] opens its stream with (lines 188-194). *)
Definition subscribe_ctx (ctx : Context) (username password : string)
    : Context :=
  if bool_decide (username ≠ "") then
    NewOutgoingContext ctx
      (Pairs ["username"; username; "password"; password])
  else ctx.

(** ** The two sessions and the pair *)

Section Bridge.

(** [gnmi.SubscribeResponse]: one telemetry update.  The client only moves
    pointers to such messages around, so the type is left open. *)
Variable Msg : Type.

(** What a session does on the outside: each library call it completes (with
    what the call returned) and each [select] case it takes. *)
Inductive action : Type :=
| CallPublish (conn : ClientConn) (ctx : Context) (err : option error)
| PublishSend (response : Msg) (err : option error)
| PublishCloseAndRecv                  (* response side of the Publish stream *)
| PublishRecvMsg                       (* response side of the Publish stream *)
| PublishDone (err : option error)     (* case <-ctx.Done() *)
| PublishTake (response : Msg)         (* case response := <-c *)
| CallSubscribe (conn : ClientConn) (ctx : Context) (err : option error)
| SubscribeSend (request : SubscribeRequest) (err : option error)
| SubscribeRecv (res : error + Msg)
| SubscribeDone (err : option error)   (* case <-ctx.Done() *)
| SubscribeGive (resp : Msg).          (* case c <- resp *)

(** *** [publish] (main.go, lines 148-165) *)

(** Where the goroutine stands. *)
Inductive pub_pc : Type :=
| PubOpen                        (* line 151: client.Publish(ctx) *)
| PubSelect                      (* line 156: select *)
| PubSend (response : Msg)       (* line 160: stream.Send(response) *)
| PubRet (err : option error).   (* returned err *)

(** What lets it move on. *)
Inductive pub_in : Type :=
| PublishRet (err : option error)   (* client.Publish returned (stream, err) *)
| PubCtxDone                        (* ctx.Done() is closed and gets chosen *)
| PubChanRecv (response : Msg)      (* a sender on c hands over response *)
| PubSendRet (err : option error).  (* stream.Send returned err *)

(** [ctxErr] is what [ctx.Err()] returns at this moment; [ctx.Done()] is
    closed exactly when it is non-nil. *)
Definition publish (ctx : Context) (ctxErr : option error)
    (destConn : ClientConn) (pc : pub_pc) (i : pub_in)
    : option (pub_pc * action) :=
  match pc, i with
  | PubOpen, PublishRet err =>
      Some (match err with
            | Some e => PubRet (Some (Errorf "error from Publish: " e))
            | None => PubSelect
            end,
            CallPublish destConn ctx err)
  | PubSelect, PubCtxDone =>
      if bool_decide (is_Some ctxErr)
      then Some (PubRet ctxErr, PublishDone ctxErr)
      else None
  | PubSelect, PubChanRecv response =>
      Some (PubSend response, PublishTake response)
  | PubSend response, PubSendRet err =>
      Some (match err with
            | Some e => PubRet (Some (Errorf "error from Publish.Send: " e))
            | None => PubSelect
            end,
            PublishSend response err)
  | _, _ => None
  end.

(** *** [subscribe] (main.go, lines 167-214) *)

Inductive sub_pc : Type :=
| SubOpen                        (* line 195: client.Subscribe(ctx) *)
| SubSendReq                     (* line 199: stream.Send(request) *)
| SubRecv                        (* line 204: stream.Recv() *)
| SubSelect (resp : Msg)         (* line 208: select *)
| SubRet (err : option error).   (* returned err *)

Inductive sub_in : Type :=
| SubscribeRet (err : option error)  (* client.Subscribe returned *)
| SubSendRet (err : option error)    (* stream.Send(request) returned err *)
| SubRecvRet (res : error + Msg)     (* stream.Recv() returned (resp, err) *)
| SubCtxDone                         (* ctx.Done() is closed and gets chosen *)
| SubChanSent.                       (* a receiver on c took resp *)

Definition subscribe (ctx : Context) (ctxErr : option error)
    (targetConn : ClientConn) (username password target : string)
    (paths : list Path) (pc : sub_pc) (i : sub_in)
    : option (sub_pc * action) :=
  let request := subscribe_request target paths in
  let ctx := subscribe_ctx ctx username password in
  match pc, i with
  | SubOpen, SubscribeRet err =>
      Some (match err with
            | Some e => SubRet (Some (Errorf "error from Subscribe: " e))
            | None => SubSendReq
            end,
            CallSubscribe targetConn ctx err)
  | SubSendReq, SubSendRet err =>
      Some (match err with
            | Some e =>
                SubRet (Some (Errorf "error sending SubscribeRequest: " e))
            | None => SubRecv
            end,
            SubscribeSend request err)
  | SubRecv, SubRecvRet res =>
      Some (match res with
            | inl e => SubRet (Some (Errorf "error from Subscribe.Recv: " e))
            | inr resp => SubSelect resp
            end,
            SubscribeRecv res)
  | SubSelect resp, SubCtxDone =>
      if bool_decide (is_Some ctxErr)
      then Some (SubRet ctxErr, SubscribeDone ctxErr)
      else None
  | SubSelect resp, SubChanSent => Some (SubRecv, SubscribeGive resp)
  | _, _ => None
  end.

(** *** One pass of the retry loop: the pair under its errgroup *)

(** What [main] hands to the two goroutines (lines 135-140). *)
Record Args : Type := {
  destConn : ClientConn;
  targetConn : ClientConn;
  username : string;
  password : string;
  target : string;
  paths : list Path;
}.

Record iteration : Type := {
  pass : nat;               (* which pass of the loop made ctx and c *)
  pub : pub_pc;
  sub : sub_pc;
  ctxErr : option error;    (* ctx.Err(): nil until the scope is cancelled *)
  egErr : option error;     (* the errgroup's first error *)
  trace : list action;      (* what the pair did so far, oldest first *)
}.

(** [errgroup.WithContext(context.Background())], [make(chan ...)] and the
    two [eg.Go] calls (lines 131-140). *)
Definition new_iteration (n : nat) : iteration :=
  {| pass := n; pub := PubOpen; sub := SubOpen;
     ctxErr := None; egErr := None; trace := [] |}.

Definition iteration_ctx (it : iteration) : Context :=
  {| scope := pass it; outgoing := None |}.

(** The wrapper of [eg.Go]: the first non-nil error is kept and cancels the
    context; cancelling twice changes nothing. *)
Definition errgroup_returned (err : option error) (it : iteration)
    : iteration :=
  match err, egErr it with
  | Some e, None =>
      {| pass := pass it; pub := pub it; sub := sub it;
         ctxErr := match ctxErr it with
                   | None => Some Canceled
                   | Some c => Some c
                   end;
         egErr := Some e; trace := trace it |}
  | _, _ => it
  end.

Definition pub_moved (it : iteration) (pc : pub_pc) (a : action)
    : iteration :=
  let it' := {| pass := pass it; pub := pc; sub := sub it;
                ctxErr := ctxErr it; egErr := egErr it;
                trace := trace it ++ [a] |} in
  match pc with
  | PubRet err => errgroup_returned err it'
  | _ => it'
  end.

Definition sub_moved (it : iteration) (pc : sub_pc) (a : action)
    : iteration :=
  let it' := {| pass := pass it; pub := pub it; sub := pc;
                ctxErr := ctxErr it; egErr := egErr it;
                trace := trace it ++ [a] |} in
  match pc with
  | SubRet err => errgroup_returned err it'
  | _ => it'
  end.

(** One scheduling step of the pair.  A goroutine moves on its own when a
    library call returns or when its [select] takes [ctx.Done()]; the channel
    is unbuffered, so a message moves only when [subscribe] stands at
    [c <- resp] and [publish] at [<-c], and then both move at once. *)
Inductive event : Type :=
| Pub (i : pub_in)
| Sub (i : sub_in)
| Handoff.

Definition step (args : Args) (it : iteration) (ev : event)
    : option iteration :=
  let ctx := iteration_ctx it in
  let publish := publish ctx (ctxErr it) (destConn args) in
  let subscribe :=
    subscribe ctx (ctxErr it) (targetConn args) (username args)
      (password args) (target args) (paths args) in
  match ev with
  | Pub (PubChanRecv _) | Sub SubChanSent => None
  | Pub i =>
      '(pc, a) ← publish (pub it) i; Some (pub_moved it pc a)
  | Sub i =>
      '(pc, a) ← subscribe (sub it) i; Some (sub_moved it pc a)
  | Handoff =>
      match sub it with
      | SubSelect resp =>
          '(spc, give) ← subscribe (sub it) SubChanSent;
          '(ppc, take) ← publish (pub it) (PubChanRecv resp);
          Some (pub_moved (sub_moved it spc give) ppc take)
      | _ => None
      end
  end.

Fixpoint run (args : Args) (it : iteration) (evs : list event)
    : option iteration :=
  match evs with
  | [] => Some it
  | ev :: evs' => it' ← step args it ev; run args it' evs'
  end.

(** *** [main] (lines 84-146) *)

Record Flags : Type := {
  flag_target_addr : string;
  flag_collector_addr : string;
  flag_target_value : string;
  flag_subscribe : multiPath;
  flag_username : string;
  flag_password : string;
  flag_collector_certfile : string;
  flag_collector_keyfile : string;
  flag_collector_cafile : string;
  flag_collector_tls : bool;
  flag_collector_tls_skipverify : bool;
}.

Record process : Type := {
  args : Args;
  glog : list string;       (* the lines written by glog.Errorf *)
  cur : iteration;
}.

Inductive status : Type :=
| Looping (pr : process)
| Exited (fatal : string).  (* glog.Fatal / glog.Fatalf: log and exit *)

Definition quote (s : string) : string :=
  let q := String (Ascii.ascii_of_nat 34) EmptyString in q +:+ s +:+ q.

(** Start-up, lines 110-125, up to the first pass of the loop. *)
Definition main_start (env : Env) (dial : string → DialOption → option error)
    (f : Flags) : list io_op * status :=
  let tls := newTLSConfig env (flag_collector_tls f)
               (flag_collector_tls_skipverify f) (flag_collector_certfile f)
               (flag_collector_keyfile f) (flag_collector_cafile f) in
  match outcome tls with
  | inl err => (effects tls, Exited (Error err))
  | inr tlsDialOption =>
      let dest := grpc_Dial dial (flag_collector_addr f) tlsDialOption in
      match outcome dest with
      | inl err =>
          (effects tls ++ effects dest,
           Exited ("error dialing destination " +:+
                   quote (flag_collector_addr f) +:+ ": " +:+ Error err))
      | inr destConn =>
          let tgt := grpc_Dial dial (flag_target_addr f) WithInsecure in
          match outcome tgt with
          | inl err =>
              (effects tls ++ effects dest ++ effects tgt,
               Exited ("error dialing target " +:+
                       quote (flag_target_addr f) +:+ ": " +:+ Error err))
          | inr targetConn =>
              (effects tls ++ effects dest ++ effects tgt,
               Looping
                 {| args := {| destConn := destConn;
                               targetConn := targetConn;
                               username := flag_username f;
                               password := flag_password f;
                               target := flag_target_value f;
                               paths := p (flag_subscribe f) |};
                    glog := [];
                    cur := new_iteration 0 |})
          end
      end
  end.

(** The loop, lines 127-145.  [Wait] is [eg.Wait()] returning, which it does
    once both goroutines have; then the error is logged and the next pass
    builds its own context, channel and goroutines. *)
Inductive main_event : Type :=
| InPass (ev : event)
| Wait.

Definition both_returned (it : iteration) : bool :=
  match pub it, sub it with
  | PubRet _, SubRet _ => true
  | _, _ => false
  end.

Definition main_step (pr : process) (ev : main_event) : option status :=
  match ev with
  | InPass e =>
      it ← step (args pr) (cur pr) e;
      Some (Looping {| args := args pr; glog := glog pr; cur := it |})
  | Wait =>
      if both_returned (cur pr) then
        let err := egErr (cur pr) in
        Some (Looping
          {| args := args pr;
             glog := glog pr ++
               match err with
               | Some e => ["encountered error, retrying: " +:+ Error e]
               | None => []
               end;
             cur := new_iteration (S (pass (cur pr))) |})
      else None
  end.

Fixpoint main_run (st : status) (evs : list main_event) : option status :=
  match evs with
  | [] => Some st
  | ev :: evs' =>
      match st with
      | Looping pr => st' ← main_step pr ev; main_run st' evs'
      | Exited _ => None
      end
  end.

(** *** Reading a trace *)

(** The updates [stream.Recv] delivered to [subscribe], in order. *)
Definition received_from_target (tr : list action) : list Msg :=
  omap (λ a, match a with SubscribeRecv (inr resp) => Some resp | _ => None end)
       tr.

(** The updates the Publish stream accepted from [publish], in order. *)
Definition sent_to_collector (tr : list action) : list Msg :=
  omap (λ a, match a with PublishSend m None => Some m | _ => None end) tr.

(** Every argument [publish] passed to [stream.Send], accepted or not. *)
Definition publish_sends (tr : list action) : list Msg :=
  omap (λ a, match a with PublishSend m _ => Some m | _ => None end) tr.

(** Every message [publish] took from the channel. *)
Definition publish_takes (tr : list action) : list Msg :=
  omap (λ a, match a with PublishTake m => Some m | _ => None end) tr.

(** The requests [subscribe] passed to [stream.Send]. *)
Definition subscribe_sends (tr : list action) : list SubscribeRequest :=
  omap (λ a, match a with SubscribeSend r _ => Some r | _ => None end) tr.

(** The contexts the two streams were opened with. *)
Definition subscribe_contexts (tr : list action) : list Context :=
  omap (λ a, match a with CallSubscribe _ ctx _ => Some ctx | _ => None end)
       tr.

Definition publish_contexts (tr : list action) : list Context :=
  omap (λ a, match a with CallPublish _ ctx _ => Some ctx | _ => None end) tr.

(** Which goroutine an action belongs to. *)
Definition by_publish (a : action) : bool :=
  match a with
  | CallPublish _ _ _ | PublishSend _ _ | PublishCloseAndRecv
  | PublishRecvMsg | PublishDone _ | PublishTake _ => true
  | _ => false
  end.

(** A read of the response side of the Publish stream. *)
Definition reads_response (a : action) : bool :=
  match a with
  | PublishCloseAndRecv | PublishRecvMsg => true
  | _ => false
  end.

(** The three things the loop of [publish] is made of. *)
Definition loop_action (a : action) : bool :=
  match a with
  | PublishTake _ | PublishSend _ _ | PublishDone _ => true
  | _ => false
  end.

(** The updates held in a local variable of a goroutine: [response] of
    [publish] while it sends, then [resp] of [subscribe] while it selects. *)
Definition in_flight (it : iteration) : list Msg :=
  match pub it with PubSend response => [response] | _ => [] end ++
  match sub it with SubSelect resp => [resp] | _ => [] end.

(** The schedule that moves the held updates on to the collector, given
    that the collector accepts them. *)
Definition flush (it : iteration) : list event :=
  match pub it, sub it with
  | PubSend _, SubSelect _ =>
      [Pub (PubSendRet None); Handoff; Pub (PubSendRet None)]
  | PubSend _, _ => [Pub (PubSendRet None)]
  | PubSelect, SubSelect _ => [Handoff; Pub (PubSendRet None)]
  | PubOpen, SubSelect _ =>
      [Pub (PublishRet None); Handoff; Pub (PubSendRet None)]
  | _, _ => []
  end.

(** The schedule that relays the updates [ms] one after the other. *)
Definition relay (ms : list Msg) : list event :=
  ms ≫= λ m, [Sub (SubRecvRet (inr m)); Handoff; Pub (PubSendRet None)].

Definition pub_returned (it : iteration) : bool :=
  match pub it with PubRet _ => true | _ => false end.

Definition sub_returned (it : iteration) : bool :=
  match sub it with SubRet _ => true | _ => false end.

(** A pass in which both streams fail to open, then [eg.Wait] returns. *)
Definition failing_pass (e : error) : list main_event :=
  [InPass (Pub (PublishRet (Some e))); InPass (Sub (SubscribeRet (Some e)));
   Wait].

Definition failing_passes (e : error) (n : nat) : list main_event :=
  mjoin (replicate n (failing_pass e)).

End Bridge.

Arguments CallPublish {Msg}.
Arguments PublishSend {Msg}.
Arguments PublishCloseAndRecv {Msg}.
Arguments PublishRecvMsg {Msg}.
Arguments PublishDone {Msg}.
Arguments PublishTake {Msg}.
Arguments CallSubscribe {Msg}.
Arguments SubscribeSend {Msg}.
Arguments SubscribeRecv {Msg}.
Arguments SubscribeDone {Msg}.
Arguments SubscribeGive {Msg}.
Arguments PubOpen {Msg}.
Arguments PubSelect {Msg}.
Arguments PubSend {Msg}.
Arguments PubRet {Msg}.
Arguments PublishRet {Msg}.
Arguments PubCtxDone {Msg}.
Arguments PubChanRecv {Msg}.
Arguments PubSendRet {Msg}.
Arguments SubOpen {Msg}.
Arguments SubSendReq {Msg}.
Arguments SubRecv {Msg}.
Arguments SubSelect {Msg}.
Arguments SubRet {Msg}.
Arguments SubscribeRet {Msg}.
Arguments SubSendRet {Msg}.
Arguments SubRecvRet {Msg}.
Arguments SubCtxDone {Msg}.
Arguments SubChanSent {Msg}.
Arguments Pub {Msg}.
Arguments Sub {Msg}.
Arguments Handoff {Msg}.
Arguments InPass {Msg}.
Arguments Wait {Msg}.
Arguments Looping {Msg}.
Arguments Exited {Msg}.
Arguments publish {Msg}.
Arguments subscribe {Msg}.
Arguments pass {Msg}.
Arguments pub {Msg}.
Arguments sub {Msg}.
Arguments ctxErr {Msg}.
Arguments egErr {Msg}.
Arguments trace {Msg}.
Arguments new_iteration {Msg}.
Arguments iteration_ctx {Msg}.
Arguments errgroup_returned {Msg}.
Arguments pub_moved {Msg}.
Arguments sub_moved {Msg}.
Arguments step {Msg}.
Arguments run {Msg}.
Arguments args {Msg}.
Arguments glog {Msg}.
Arguments cur {Msg}.
Arguments main_start {Msg}.
Arguments both_returned {Msg}.
Arguments main_step {Msg}.
Arguments main_run {Msg}.
Arguments received_from_target {Msg}.
Arguments sent_to_collector {Msg}.
Arguments publish_sends {Msg}.
Arguments publish_takes {Msg}.
Arguments subscribe_sends {Msg}.
Arguments subscribe_contexts {Msg}.
Arguments publish_contexts {Msg}.
Arguments by_publish {Msg}.
Arguments reads_response {Msg}.
Arguments loop_action {Msg}.
Arguments in_flight {Msg}.
Arguments flush {Msg}.
Arguments relay {Msg}.
Arguments pub_returned {Msg}.
Arguments sub_returned {Msg}.
Arguments failing_pass {Msg}.
Arguments failing_passes {Msg}.

(** ** Sample inputs *)

(** A host without any of the files. *)
Definition no_files : Env :=
  {| fs_ReadFile := λ name, inl (PathError "open" name);
     x509_AppendCertsFromPEM := λ cp _, (cp, false);
     tls_X509KeyPair := λ _ _,
       inl (errorString "tls: failed to find any PEM data") |}.

(** A host where every file holds one well-formed PEM block. *)
Definition pem_files : Env :=
  {| fs_ReadFile := λ name, inr [Byte.x2d];
     x509_AppendCertsFromPEM := λ cp b, (cp ++ [b], true);
     tls_X509KeyPair := λ c k,
       inr {| Certificate_chain := [c]; PrivateKey := k |} |}.

(** The same host, but no file parses as a certificate bundle. *)
Definition bad_bundles : Env :=
  {| fs_ReadFile := fs_ReadFile pem_files;
     x509_AppendCertsFromPEM := λ cp _, (cp, false);
     tls_X509KeyPair := tls_X509KeyPair pem_files |}.

Definition dial_ok : string → DialOption → option error := λ _ _, None.

Definition sample_flags : Flags :=
  {| flag_target_addr := "127.0.0.1:6030";
     flag_collector_addr := "10.0.0.5:9339";
     flag_target_value := "";
     flag_subscribe := {| p := [] |};
     flag_username := "";
     flag_password := "";
     flag_collector_certfile := "client.crt";
     flag_collector_keyfile := "";
     flag_collector_cafile := "";
     flag_collector_tls := true;
     flag_collector_tls_skipverify := false |}.

Definition sample_conn (addr : string) : ClientConn :=
  {| cc_target := addr; cc_option := WithInsecure |}.

Definition counters : Path :=
  {| Origin := "";
     Elem := [ {| Name := "interfaces"; Key := ∅ |};
               {| Name := "interface"; Key := ∅ |};
               {| Name := "state"; Key := ∅ |};
               {| Name := "counters"; Key := ∅ |} ];
     Target := "" |}.

Definition sample_args : Args :=
  {| destConn := sample_conn "10.0.0.5:9339";
     targetConn := sample_conn "127.0.0.1:6030";
     username := "admin";
     password := "";
     target := "leaf1";
     paths := [counters; counters] |}.

(** Both streams open, the request goes out, three updates arrive; the
    first two have reached the collector and the third waits in [resp]. *)
Definition sample_run : list (event nat) :=
  [ Sub (SubscribeRet None); Sub (SubSendRet None); Pub (PublishRet None);
    Sub (SubRecvRet (inr 1)); Handoff; Sub (SubRecvRet (inr 2));
    Pub (PubSendRet None); Handoff; Pub (PubSendRet None);
    Sub (SubRecvRet (inr 3)) ].

(** The target closes its stream after one update. *)
Definition closing_run : list (event nat) :=
  [ Sub (SubscribeRet None); Sub (SubSendRet None); Pub (PublishRet None);
    Sub (SubRecvRet (inr 1)); Handoff; Pub (PubSendRet None);
    Sub (SubRecvRet (inl EOF)) ].

Definition sample_process : process nat :=
  {| args := sample_args; glog := []; cur := new_iteration 0 |}.

(** Where the two sample runs lead. *)
Definition sample_state : iteration nat :=
  Eval vm_compute in
    default (new_iteration 0) (run sample_args (new_iteration 0) sample_run).

Definition closing_state : iteration nat :=
  Eval vm_compute in
    default (new_iteration 0) (run sample_args (new_iteration 0) closing_run).

(** A stand-in for the path parser: one element named after the value, and
    no path for the empty value. *)
Definition sample_parse (s : string) : error + Path :=
  if bool_decide (s = "") then inl (errorString "empty path")
  else inr {| Origin := ""; Elem := [ {| Name := s; Key := ∅ |} ];
              Target := "" |}.

(** ** What stays true during a pass *)

(** The errors [publish] can return. *)
Inductive publish_error : error → Prop :=
| publish_open_failed err :
    publish_error (Errorf "error from Publish: " err)
| publish_send_failed err :
    publish_error (Errorf "error from Publish.Send: " err)
| publish_cancelled : publish_error Canceled.

(** The errors [subscribe] can return. *)
Inductive subscribe_error : error → Prop :=
| subscribe_open_failed err :
    subscribe_error (Errorf "error from Subscribe: " err)
| subscribe_request_failed err :
    subscribe_error (Errorf "error sending SubscribeRequest: " err)
| subscribe_recv_failed err :
    subscribe_error (Errorf "error from Subscribe.Recv: " err)
| subscribe_cancelled : subscribe_error Canceled.

(** The scope is cancelled exactly when the errgroup holds an error, its
    reason is [context.Canceled], and a goroutine that has returned has
    returned one of its errors and left the scope cancelled. *)
Definition scope_inv {Msg} (it : iteration Msg) : Prop :=
  (ctxErr it = None ∨ ctxErr it = Some Canceled)
  ∧ (egErr it = None ↔ ctxErr it = None)
  ∧ (∀ r, pub it = PubRet r →
       ∃ e, r = Some e ∧ publish_error e ∧ ctxErr it = Some Canceled)
  ∧ (∀ r, sub it = SubRet r →
       ∃ e, r = Some e ∧ subscribe_error e ∧ ctxErr it = Some Canceled).

(** While the scope is not cancelled, what came from the target is what
    went to the collector followed by what the goroutines hold. *)
Definition relay_inv {Msg} (it : iteration Msg) : Prop :=
  ctxErr it = None →
  received_from_target (trace it)
  = sent_to_collector (trace it) ++ in_flight it.

(** [publish] passes to [stream.Send] what it took from the channel. *)
Definition publish_inv {Msg} (it : iteration Msg) : Prop :=
  publish_takes (trace it)
  = publish_sends (trace it) ++
    match pub it with PubSend response => [response] | _ => [] end.

(** The request goes out once, right after the stream opens. *)
Definition request_inv {Msg} (args : Args) (it : iteration Msg) : Prop :=
  let request := subscribe_request (target args) (paths args) in
  match sub it with
  | SubOpen | SubSendReq => subscribe_sends (trace it) = []
  | SubRecv | SubSelect _ => subscribe_sends (trace it) = [request]
  | SubRet _ =>
      subscribe_sends (trace it) = [] ∨ subscribe_sends (trace it) = [request]
  end.

(** Each stream is opened at most once, with the context of its session. *)
Definition contexts_inv {Msg} (args : Args) (it : iteration Msg) : Prop :=
  let ctx := iteration_ctx it in
  match sub it with
  | SubOpen => subscribe_contexts (trace it) = []
  | _ => subscribe_contexts (trace it)
         = [subscribe_ctx ctx (username args) (password args)]
  end
  ∧ match pub it with
    | PubOpen => publish_contexts (trace it) = []
    | _ => publish_contexts (trace it) = [ctx]
    end.

(** An action of [publish] is the opening of its stream or one of the three
    things its loop does; nothing reads the response side of that stream. *)
Definition publish_shape {Msg} (act : action Msg) : Prop :=
  reads_response act = false
  ∧ (by_publish act = true →
     loop_action act = true ∨ ∃ conn ctx err, act = CallPublish conn ctx err).

(** All of them together, for the pass numbered [n]. *)
Definition pass_inv {Msg} (args : Args) (n : nat) (it : iteration Msg)
    : Prop :=
  pass it = n ∧ scope_inv it ∧ relay_inv it ∧ publish_inv it
  ∧ request_inv args it ∧ contexts_inv args it
  ∧ Forall publish_shape (trace it).

(** How many more steps the pair can take once one goroutine has returned
    and the channel has lost its other end. *)
Definition remaining {Msg} (it : iteration Msg) : nat :=
  match sub it with
  | SubOpen => 4 | SubSendReq => 3 | SubRecv => 2 | SubSelect _ => 1
  | SubRet _ => 0
  end +
  match pub it with
  | PubOpen | PubSend _ => 2 | PubSelect => 1 | PubRet _ => 0
  end.

(** The current pass of a process was reached from its start. *)
Definition pass_reachable {Msg} (pr : process Msg) : Prop :=
  ∃ evs, run (args pr) (new_iteration (pass (cur pr))) evs = Some (cur pr).

(** ** The rest of the [-subscribe] flag *)

(** [strings.Join]. *)
Fixpoint Join (elems : list string) (sep : string) : string :=
  match elems with
  | [] => ""
  | s :: rest =>
      match rest with
      | [] => s
      | _ :: _ => s +:+ sep +:+ Join rest sep
      end
  end.

(** The loop of [String] (lines 36-38): slot [i] of [s] receives the text of
    path [i]. *)
Fixpoint fill_from (StrPath : Path → string) (i : nat) (ps : list Path)
    (s : list string) : list string :=
  match ps with
  | [] => s
  | p0 :: ps' => fill_from StrPath (S i) ps' (<[i := StrPath p0]> s)
  end.

(** [String] (lines 31-40); the receiver is a pointer and may be nil.
    [StrPath] stands for [gnmilib.StrPath]. *)
Definition multiPath_String (StrPath : Path → string) (m : option multiPath)
    : string :=
  match m with
  | None => ""
  | Some m =>
      let s := replicate (length (p m)) "" in
      let s := fill_from StrPath 0 (p m) s in
      Join s ", "
  end.


(** A stand-in for [gnmilib.StrPath]: the element names after slashes. *)
Definition sample_StrPath (path : Path) : string :=
  "/" +:+ Join (Name <$> Elem path) "/".

(** ** More that stays true during a pass *)

(** The updates [subscribe] handed to the channel. *)
Definition subscribe_gives {Msg} (tr : list (action Msg)) : list Msg :=
  omap (λ a, match a with SubscribeGive m => Some m | _ => None end) tr.

(** [subscribe] holds at most one update it has received and not given;
    [publish] has at most one [Send] that was refused, its last; the channel
    delivers what it is given; nothing is received before the request is out
    and nothing is taken before the Publish stream is open. *)
Definition conduit_inv {Msg} (args : Args) (it : iteration Msg) : Prop :=
  let tr := trace it in
  publish_takes tr = subscribe_gives tr
  ∧ match sub it with
    | SubOpen | SubSendReq =>
        received_from_target tr = [] ∧ subscribe_gives tr = []
    | SubRecv => received_from_target tr = subscribe_gives tr
    | SubSelect resp => received_from_target tr = subscribe_gives tr ++ [resp]
    | SubRet _ =>
        received_from_target tr = subscribe_gives tr
        ∨ ∃ resp, received_from_target tr = subscribe_gives tr ++ [resp]
    end
  ∧ match pub it with
    | PubOpen => publish_sends tr = [] ∧ sent_to_collector tr = []
    | PubRet _ =>
        publish_sends tr = sent_to_collector tr
        ∨ ∃ m, publish_sends tr = sent_to_collector tr ++ [m]
    | _ => publish_sends tr = sent_to_collector tr
    end
  ∧ (received_from_target tr = []
     ∨ subscribe_sends tr
       = [subscribe_request (target args) (paths args)]).

(** ** The credential builder *)

(** C6.  With TLS disabled [newTLSConfig] returns [grpc.WithInsecure()] and a
    nil error whatever the other four arguments are, and performs no effect
    at all: no file is read, no path is looked at. *)
Theorem newTLSConfig_plaintext (env : Env) (skipVerify : bool)
    (certFile keyFile caFile : string) :
  newTLSConfig env false skipVerify certFile keyFile caFile
    = ([], inr WithInsecure)
  ∧ go_result (newTLSConfig env false skipVerify certFile keyFile caFile)
    = (Some WithInsecure, None).
Proof. split; reflexivity. Qed.

(** C3, as stated, fails: with TLS disabled a certificate path without a key
    path is accepted and the plaintext option comes back with a nil error. *)
Lemma newTLSConfig_cert_without_key_plaintext :
  "client.crt" ≠ EmptyString
  ∧ go_result (newTLSConfig no_files false false "client.crt" "" "")
    = (Some WithInsecure, None)
  ∧ ¬ ∃ err, go_result (newTLSConfig no_files false false "client.crt" "" "")
             = (None, Some err).
Proof.
  split; [done|]. split; [reflexivity|]. intros [err Herr]. discriminate Herr.
Qed.

(** C3, amended.  With TLS enabled, a certificate path with an empty key
    path makes [newTLSConfig] return a nil option and a non-nil error.  The
    only file it may have read by then is the CA file, the key pair is never
    loaded, nothing is dialled; and [main] exits on that error before either
    [grpc.Dial]. *)
Theorem newTLSConfig_cert_without_key (env : Env) (skipVerify : bool)
    (certFile keyFile caFile : string) :
  certFile ≠ "" → keyFile = "" →
  let r := newTLSConfig env true skipVerify certFile keyFile caFile in
  (∃ err, go_result r = (None, Some err))
  ∧ (effects r = [] ∨ effects r = [ReadFile caFile])
  ∧ Forall (λ op, is_network op = false) (effects r)
  ∧ ∀ (Msg : Type) dial (f : Flags),
      flag_collector_tls f = true →
      flag_collector_certfile f = certFile →
      flag_collector_keyfile f = keyFile →
      ∃ fatal, (main_start (Msg:=Msg) env dial f).2 = Exited fatal
             ∧ Forall (λ op, is_network op = false)
                      (main_start (Msg:=Msg) env dial f).1.
Proof.
  intros Hcert ->. cbn zeta.
  assert (H : ∀ skipVerify caFile,
    let r := newTLSConfig env true skipVerify certFile "" caFile in
    (∃ err, outcome r = inl err)
    ∧ (effects r = [] ∨ effects r = [ReadFile caFile])).
  { clear skipVerify caFile. intros skipVerify caFile.
    unfold newTLSConfig, go_result, outcome, effects, readFile, fail.
    rewrite (bool_decide_eq_true_2 _ Hcert).
    destruct skipVerify; simpl; [eauto|].
    case_bool_decide; simpl; [|eauto].
    unfold mbind, IO_bind; simpl.
    destruct (fs_ReadFile env caFile) as [err|b]; simpl; [eauto|].
    destruct (x509_AppendCertsFromPEM env NewCertPool b) as [cp []];
      simpl; eauto. }
  assert (Hnet : ∀ skipVerify caFile,
    Forall (λ op, is_network op = false)
      (effects (newTLSConfig env true skipVerify certFile "" caFile))).
  { intros sv ca. destruct (H sv ca) as (_ & [-> | ->]); repeat constructor. }
  destruct (H skipVerify caFile) as ([err Herr] & Heff).
  split; [exists err; unfold go_result; by rewrite Herr|].
  split; [done|]. split; [apply Hnet|].
  intros Msg dial f Htls Hc Hk. unfold main_start.
  rewrite Htls, Hc, Hk.
  destruct (H (flag_collector_tls_skipverify f) (flag_collector_cafile f))
    as ([err' Herr'] & _).
  rewrite Herr'. simpl. eexists. split; [reflexivity|]. apply Hnet.
Qed.

Lemma newTLSConfig_cert_without_key_witness :
  (∃ err, go_result (newTLSConfig no_files true false "client.crt" "" "")
          = (None, Some err))
  ∧ ∃ fatal, (main_start (Msg:=nat) no_files dial_ok sample_flags).2
             = Exited fatal.
Proof.
  destruct (newTLSConfig_cert_without_key no_files false "client.crt" "" "")
    as (H1 & _ & _ & H2); [done|done|].
  split; [exact H1|].
  destruct (H2 nat dial_ok sample_flags) as (fatal & Hf & _); [done..|].
  by exists fatal.
Defined.

Ltac unfold_io :=
  unfold newTLSConfig, LoadX509KeyPair, readFile, fail, go_result, outcome,
    effects, mbind, mret, IO_bind, IO_ret in *;
  simpl in *.

Ltac destruct_answer :=
  match goal with
  | |- context [match fs_ReadFile ?e ?f with inl _ => _ | inr _ => _ end] =>
      destruct (fs_ReadFile e f) eqn:?
  | H : context [match fs_ReadFile ?e ?f with inl _ => _ | inr _ => _ end]
    |- _ => destruct (fs_ReadFile e f) eqn:?
  | |- context [match tls_X509KeyPair ?e ?c ?k with
                | inl _ => _ | inr _ => _ end] =>
      destruct (tls_X509KeyPair e c k) eqn:?
  | H : context [match tls_X509KeyPair ?e ?c ?k with
                 | inl _ => _ | inr _ => _ end] |- _ =>
      destruct (tls_X509KeyPair e c k) eqn:?
  | |- context [x509_AppendCertsFromPEM ?e ?cp ?b] =>
      destruct (x509_AppendCertsFromPEM e cp b) as [? []] eqn:?
  | H : context [let '(_, _) := x509_AppendCertsFromPEM ?e ?cp ?b in _]
    |- _ => destruct (x509_AppendCertsFromPEM e cp b) as [? []] eqn:?
  end.

Ltac crunch_io :=
  repeat (simpl in *; subst; first
    [ done
    | destruct_answer
    | match goal with
      | |- context [bool_decide ?P] => destruct (bool_decide_reflect P)
      | H : context [bool_decide ?P] |- _ => destruct (bool_decide_reflect P)
      | H : inr _ = inr _ |- _ => injection H as <-
      | |- ∀ _, _ => intro
      | |- _ ∧ _ => split
      | |- ∃ _, _ => eexists
      end ]).

(** C5.  With TLS enabled.  Skip-verify set: an option that is returned has
    [InsecureSkipVerify] on and no root set, the only files read are the
    client certificate and key, and neither the CA path nor what the CA file
    holds nor the bundle parser has any influence on the result.  Skip-verify
    off and a CA path given: the CA file is read first; a failed read
    returns that error, a bundle that does not parse returns the
    "failed to append certificates" error, and a bundle that parses becomes
    [RootCAs] of any option returned.  Skip-verify off and no CA path:
    [RootCAs] stays nil, the host's root set, and no CA file is read. *)
Theorem newTLSConfig_trust (env : Env) (certFile keyFile caFile : string) :
  (* skip-verify *)
  (∀ opt,
     outcome (newTLSConfig env true true certFile keyFile caFile) = inr opt →
     ∃ creds, opt = WithTransportCredentials creds
              ∧ InsecureSkipVerify creds = true ∧ RootCAs creds = None)
  ∧ effects (newTLSConfig env true true certFile keyFile caFile)
      `prefix_of` [ReadFile certFile; ReadFile keyFile]
  ∧ (∀ env' caFile',
       fs_ReadFile env' certFile = fs_ReadFile env certFile →
       fs_ReadFile env' keyFile = fs_ReadFile env keyFile →
       tls_X509KeyPair env' = tls_X509KeyPair env →
       newTLSConfig env' true true certFile keyFile caFile'
       = newTLSConfig env true true certFile keyFile caFile)
  (* verification on, CA file given *)
  ∧ (caFile ≠ "" →
     let r := newTLSConfig env true false certFile keyFile caFile in
     (∃ rest, effects r = ReadFile caFile :: rest)
     ∧ match fs_ReadFile env caFile with
       | inl err => r = ([ReadFile caFile], inl err)
       | inr b =>
           match x509_AppendCertsFromPEM env NewCertPool b with
           | (_, false) =>
               r = ([ReadFile caFile],
                    inl (errorString
                           "credentials: failed to append certificates"))
           | (cp, true) =>
               (∀ opt, outcome r = inr opt →
                  ∃ creds, opt = WithTransportCredentials creds
                           ∧ InsecureSkipVerify creds = false
                           ∧ RootCAs creds = Some cp)
               ∧ (certFile = "" →
                  r = ([ReadFile caFile],
                       inr (WithTransportCredentials
                              {| InsecureSkipVerify := false;
                                 RootCAs := Some cp;
                                 Certificates := [] |})))
           end
       end)
  (* verification on, no CA file *)
  ∧ (caFile = "" →
     let r := newTLSConfig env true false certFile keyFile caFile in
     (∀ opt, outcome r = inr opt →
        ∃ creds, opt = WithTransportCredentials creds
                 ∧ InsecureSkipVerify creds = false ∧ RootCAs creds = None)
     ∧ effects r `prefix_of` [ReadFile certFile; ReadFile keyFile]
     ∧ (certFile = "" →
        r = ([], inr (WithTransportCredentials tls_Config_zero)))).
Proof.
  split; [|split; [|split; [|split]]].
  - unfold_io. crunch_io.
  - unfold_io. crunch_io; try apply prefix_nil; try reflexivity.
    by exists [ReadFile keyFile].
  - intros env' caFile' Hc Hk Hp. unfold_io. rewrite Hc, Hk, Hp. reflexivity.
  - intros Hca. cbn zeta. split.
    + unfold_io. crunch_io.
    + destruct (fs_ReadFile env caFile) as [err|b] eqn:Hread.
      { unfold_io. rewrite Hread. crunch_io. }
      destruct (x509_AppendCertsFromPEM env NewCertPool b) as [cp []] eqn:Hcp.
      * split.
        { unfold_io. rewrite Hread; simpl. rewrite Hcp; simpl. crunch_io. }
        intros ->. unfold_io. rewrite Hread; simpl. rewrite Hcp; simpl.
        crunch_io.
      * unfold_io. rewrite Hread; simpl. rewrite Hcp; simpl. crunch_io.
  - intros ->. cbn zeta. split; [|split].
    + unfold_io. crunch_io.
    + unfold_io. crunch_io; try apply prefix_nil; try reflexivity.
      by exists [ReadFile keyFile].
    + intros ->. reflexivity.
Qed.

Lemma newTLSConfig_trust_witness :
  newTLSConfig pem_files true false "" "" "ca.pem"
  = ([ReadFile "ca.pem"],
     inr (WithTransportCredentials
            {| InsecureSkipVerify := false; RootCAs := Some [[Byte.x2d]];
               Certificates := [] |}))
  ∧ newTLSConfig bad_bundles true true "" "" "ca.pem"
    = newTLSConfig pem_files true true "" "" "".
Proof.
  split.
  - destruct (newTLSConfig_trust pem_files "" "" "ca.pem")
      as (_ & _ & _ & H & _).
    destruct (H ltac:(done)) as [_ [_ H']]. apply H'. reflexivity.
  - destruct (newTLSConfig_trust pem_files "" "" "")
      as (_ & _ & H & _).
    apply H; reflexivity.
Defined.

(** ** The sessions *)

Section BridgeProperties.

Variable Msg : Type.
Variable a : Args.

Implicit Types (it : iteration Msg) (ev : event Msg) (evs : list (event Msg)).

Lemma run_app it evs1 evs2 :
  run a it (evs1 ++ evs2) = it' ← run a it evs1; run a it' evs2.
Proof.
  revert it. induction evs1 as [|ev evs1 IH]; intros it; simpl; [done|].
  destruct (step a it ev); simpl; [apply IH|done].
Qed.

(** A property that holds at the start of a pass and that every step keeps
    holds after every run. *)
Lemma run_invariant (P : iteration Msg → Prop) :
  (∀ it ev it', P it → step a it ev = Some it' → P it') →
  ∀ evs it it', P it → run a it evs = Some it' → P it'.
Proof.
  intros Hstep. induction evs as [|ev evs IH]; intros it it' HP Hrun.
  - by injection Hrun as <-.
  - simpl in Hrun. destruct (step a it ev) as [it1|] eqn:Hs; [|done].
    eapply IH; [|exact Hrun]. eapply Hstep; eauto.
Qed.

Ltac step_inv H :=
  unfold step, publish, subscribe in H; simpl in H;
  repeat match type of H with
         | context [bool_decide (is_Some ?c)] =>
             destruct c as [?|]; simpl in H; try discriminate H
         | context [match ?x with _ => _ end] =>
             destruct x eqn:?; simpl in H; try discriminate H
         end;
  injection H as <-; subst; simpl.

Ltac read_trace :=
  unfold received_from_target, sent_to_collector, publish_sends,
    publish_takes, subscribe_sends, subscribe_contexts, publish_contexts,
    in_flight in *;
  rewrite ?omap_app; simpl in *.

Lemma step_scope_inv it ev it' :
  scope_inv it → step a it ev = Some it' → scope_inv it'.
Proof.
  destruct it as [n pp sp ce ee tr].
  intros (Hc & He & Hp & Hs) H. simpl in *. step_inv H.
  all: unfold scope_inv; simpl.
  all: naive_solver eauto using publish_error, subscribe_error.
Qed.

Lemma step_relay_inv it ev it' :
  scope_inv it → relay_inv it → step a it ev = Some it' → relay_inv it'.
Proof.
  destruct it as [n pp sp ce ee tr].
  intros (Hc & He & Hp & Hs) Hr H. unfold relay_inv in *. simpl in *.
  step_inv H.
  all: intros Hce; try discriminate Hce.
  all: try (destruct He as [_ He]; discriminate (He eq_refl)).
  all: read_trace; specialize (Hr eq_refl).
  all: rewrite ?app_nil_r in *.
  all: rewrite ?Hr, <- ?app_assoc, ?app_nil_r; simpl; done.
Qed.

Lemma step_publish_inv it ev it' :
  publish_inv it → step a it ev = Some it' → publish_inv it'.
Proof.
  destruct it as [n pp sp ce ee tr].
  intros Hi H. unfold publish_inv in *. simpl in *. step_inv H.
  all: read_trace; rewrite ?app_nil_r in *.
  all: rewrite ?Hi, <- ?app_assoc, ?app_nil_r; simpl; done.
Qed.

Lemma step_request_inv it ev it' :
  request_inv a it → step a it ev = Some it' → request_inv a it'.
Proof.
  destruct it as [n pp sp ce ee tr].
  intros Hi H. unfold request_inv in *. simpl in *. step_inv H.
  all: read_trace; rewrite ?app_nil_r in *.
  all: rewrite ?Hi; simpl; eauto.
Qed.

Lemma step_contexts_inv it ev it' :
  contexts_inv a it → step a it ev = Some it' → contexts_inv a it'.
Proof.
  destruct it as [n pp sp ce ee tr].
  intros [Hs Hp] H. unfold contexts_inv, iteration_ctx in *. simpl in *.
  step_inv H.
  all: read_trace; rewrite ?app_nil_r in *.
  all: rewrite ?Hs, ?Hp; simpl; eauto.
Qed.

Lemma step_pass it ev it' : step a it ev = Some it' → pass it' = pass it.
Proof. destruct it as [n pp sp ce ee tr]. intros H. by step_inv H. Qed.

Lemma step_publish_shape it ev it' :
  Forall publish_shape (trace it) → step a it ev = Some it' →
  Forall publish_shape (trace it').
Proof.
  destruct it as [n pp sp ce ee tr]. intros Hi H. simpl in *. step_inv H.
  all: rewrite ?Forall_app; repeat split; try done.
  all: repeat first [apply Forall_nil_2 | apply Forall_cons_2].
  all: split; [done|]; simpl; intros Hb; try discriminate Hb; eauto.
Qed.

Lemma new_iteration_inv n : pass_inv a n (new_iteration (Msg:=Msg) n).
Proof.
  unfold pass_inv, scope_inv, relay_inv, publish_inv, request_inv,
    contexts_inv; simpl.
  split_and!; try done; by left.
Qed.

Lemma run_pass_inv n evs it :
  run a (new_iteration n) evs = Some it → pass_inv a n it.
Proof.
  intros Hrun.
  eapply (run_invariant (pass_inv a n)); [|apply new_iteration_inv|exact Hrun].
  clear. intros it ev it' (Hn & Hs & Hr & Hp & Hq & Hc & Hf) Hstep.
  split_and!; eauto using step_scope_inv, step_relay_inv, step_publish_inv,
    step_request_inv, step_contexts_inv, step_publish_shape.
  by rewrite (step_pass _ _ _ Hstep).
Qed.

(** C1.  In a pass whose scope has not been cancelled, whatever the
    schedule: the updates [stream.Recv] has delivered are, in order and one
    for one, the updates the Publish stream has accepted, followed by the at
    most two that sit in [response] and [resp].  Those are not lost either:
    the schedule [flush] hands them to a collector that accepts them, after
    which the collector has received exactly what the target sent.  And once
    both streams are open, any further sequence [ms] of updates can be
    relayed, one [Recv], one handoff and one [Send] each. *)
Theorem relay_is_identity (n : nat) evs it :
  run a (new_iteration n) evs = Some it →
  ctxErr it = None →
  received_from_target (trace it)
    = sent_to_collector (trace it) ++ in_flight it
  ∧ length (in_flight it) ≤ 2
  ∧ (in_flight it = [] →
     sent_to_collector (trace it) = received_from_target (trace it))
  ∧ (∃ it', run a it (flush it) = Some it'
            ∧ ctxErr it' = None ∧ in_flight it' = []
            ∧ received_from_target (trace it')
              = received_from_target (trace it)
            ∧ sent_to_collector (trace it')
              = received_from_target (trace it))
  ∧ (pub it = PubSelect → sub it = SubRecv →
     ∀ ms, ∃ it', run a it (relay ms) = Some it'
                  ∧ ctxErr it' = None ∧ in_flight it' = []
                  ∧ received_from_target (trace it')
                    = received_from_target (trace it) ++ ms
                  ∧ sent_to_collector (trace it')
                    = received_from_target (trace it) ++ ms).
Proof.
  intros Hrun Hce.
  destruct (run_pass_inv _ _ _ Hrun) as (_ & Hs & Hr & _).
  specialize (Hr Hce). split; [exact Hr|].
  split; [unfold in_flight; destruct (pub it), (sub it); simpl; lia|].
  split; [intros Hnil; by rewrite Hr, Hnil, app_nil_r|].
  split.
  - destruct Hs as (_ & He & Hp & Hq).
    destruct it as [k pp sp ce ee tr]; simpl in *; subst ce.
    assert (ee = None) as -> by (by apply He).
    unfold flush; simpl.
    destruct pp as [| |m|r], sp as [| | |m'|r']; simpl.
    all: try (destruct (Hp _ eq_refl) as (? & _ & _ & ?); done).
    all: try (destruct (Hq _ eq_refl) as (? & _ & _ & ?); done).
    all: eexists; split; [reflexivity|]; simpl.
    all: read_trace; rewrite ?app_nil_r in *.
    all: rewrite ?Hr, <- ?app_assoc, ?app_nil_r; done.
  - intros Hpub Hsub ms.
    assert (Hsent : sent_to_collector (trace it)
                    = received_from_target (trace it)).
    { rewrite Hr. unfold in_flight. rewrite Hpub, Hsub. by rewrite app_nil_r. }
    destruct Hs as (_ & He & _).
    assert (Hee : egErr it = None) by (by apply He).
    clear Hrun Hr He. revert it Hce Hee Hpub Hsub Hsent.
    induction ms as [|m ms IH]; intros it Hce Hee Hpub Hsub Hsent.
    + exists it. simpl. rewrite app_nil_r.
      unfold in_flight. by rewrite Hpub, Hsub.
    + destruct it as [k pp sp ce ee tr]; simpl in *; subst.
      set (it1 := {| pass := k; pub := PubSelect; sub := SubRecv;
                     ctxErr := None; egErr := None;
                     trace := (((tr ++ [SubscribeRecv (inr m)])
                                ++ [SubscribeGive m]) ++ [PublishTake m])
                               ++ [PublishSend m None] |}).
      destruct (IH it1) as (it' & Hrun' & Hce' & Hfl' & Hrecv' & Hsent');
        try done.
      { subst it1. simpl. read_trace. rewrite ?app_nil_r. by rewrite Hsent. }
      exists it'. split; [exact Hrun'|].
      split; [done|]. split; [done|].
      subst it1. simpl in *. rewrite Hrecv', Hsent'.
      read_trace. rewrite ?app_nil_r, <- ?app_assoc. done.
Qed.

(** The loop of [subscribe] that appends one entry per path builds the
    image of the path list. *)
Lemma subscribe_request_entries (tgt : string) (ps : list Path) :
  subscribe_request tgt ps
  = SubscribeRequest_Subscribe
      {| Prefix := Some {| Origin := ""; Elem := []; Target := tgt |};
         Subscription_ :=
           (λ p, {| Subscription_Path := Some p;
                    Mode := SubscriptionMode_TARGET_DEFINED |}) <$> ps |}.
Proof.
  unfold subscribe_request. f_equal.
  set (entry := λ p0 : Path, {| Subscription_Path := Some p0;
                                Mode := SubscriptionMode_TARGET_DEFINED |}).
  assert (H : ∀ pre acc,
    foldl (λ subList p0,
             {| Prefix := Prefix subList;
                Subscription_ := Subscription_ subList ++ [entry p0] |})
          {| Prefix := pre; Subscription_ := acc |} ps
    = {| Prefix := pre; Subscription_ := acc ++ (entry <$> ps) |}).
  { induction ps as [|p0 ps IH]; intros pre acc; simpl.
    - by rewrite app_nil_r.
    - rewrite IH. by rewrite <- app_assoc. }
  apply (H _ []).
Qed.

(** C2.  The request [subscribe] builds has the configured target in the
    [Target] field of its prefix and one subscription per configured path,
    in the configured order, duplicates included, each in mode
    [TARGET_DEFINED]; [Set] appends each parsed flag value at the end.  In
    every run of a pass the session passes at most one request to
    [stream.Send], and it is that one: none before the stream is open, one
    from then on. *)
Theorem subscribe_sends_one_request (n : nat) evs it :
  run a (new_iteration n) evs = Some it →
  let request := subscribe_request (target a) (paths a) in
  request
    = SubscribeRequest_Subscribe
        {| Prefix := Some {| Origin := ""; Elem := []; Target := target a |};
           Subscription_ :=
             (λ p, {| Subscription_Path := Some p;
                      Mode := SubscriptionMode_TARGET_DEFINED |})
             <$> paths a |}
  ∧ (∀ parse m s gnmiPath, parse s = inr gnmiPath →
       multiPath_Set parse m s = ({| p := p m ++ [gnmiPath] |}, None))
  ∧ (subscribe_sends (trace it) = [] ∨ subscribe_sends (trace it) = [request])
  ∧ (sub it = SubOpen ∨ sub it = SubSendReq → subscribe_sends (trace it) = [])
  ∧ (sub it = SubRecv ∨ (∃ resp, sub it = SubSelect resp) →
     subscribe_sends (trace it) = [request])
  ∧ (sub it = SubSendReq →
     ∀ err, ∃ it', step a it (Sub (SubSendRet err)) = Some it'
                   ∧ subscribe_sends (trace it') = [request]).
Proof.
  intros Hrun. cbn zeta.
  destruct (run_pass_inv _ _ _ Hrun) as (_ & _ & _ & _ & Hq & _).
  unfold request_inv in Hq.
  split; [apply subscribe_request_entries|].
  split; [intros parse m s g Hg; unfold multiPath_Set; by rewrite Hg|].
  split; [destruct (sub it); eauto|].
  split; [intros [H|H]; by rewrite H in Hq|].
  split; [intros [H|[resp H]]; by rewrite H in Hq|].
  intros Hsub err. rewrite Hsub in Hq.
  destruct it as [k pp sp ce ee tr]; simpl in *; subst sp.
  unfold step; simpl.
  destruct err as [e|]; simpl.
  - destruct ee; simpl; eexists; (split; [reflexivity|]); simpl;
      read_trace; by rewrite Hq.
  - eexists; split; [reflexivity|]; simpl. read_trace. by rewrite Hq.
Qed.

(** C4.  In every run of a pass, a context that [client.Subscribe] was
    called with carries the metadata pair [username], [password] when the
    configured username is non-empty (the password as configured, the empty
    string included) and no metadata when it is empty; a context that
    [client.Publish] was called with is the plain context of the pass and
    carries no metadata. *)
Theorem metadata_on_subscribe_only (n : nat) evs it :
  run a (new_iteration n) evs = Some it →
  (∀ ctx, ctx ∈ subscribe_contexts (trace it) →
     scope ctx = n
     ∧ (username a ≠ "" →
        outgoing ctx
          = Some (<["password" := [password a]]>
                    (<["username" := [username a]]> ∅))
        ∧ ∃ md : MD, outgoing ctx = Some md
            ∧ md !! "username" = Some [username a]
            ∧ md !! "password" = Some [password a])
     ∧ (username a = "" → outgoing ctx = None))
  ∧ (∀ ctx, ctx ∈ publish_contexts (trace it) →
       ctx = {| scope := n; outgoing := None |}).
Proof.
  intros Hrun.
  destruct (run_pass_inv _ _ _ Hrun) as (Hn & _ & _ & _ & _ & [Hs Hp] & _).
  unfold iteration_ctx in *. rewrite Hn in *. split.
  - intros ctx Hin.
    assert (ctx = subscribe_ctx {| scope := n; outgoing := None |}
                    (username a) (password a)) as ->.
    { destruct (sub it); rewrite Hs in Hin;
        solve [by apply elem_of_nil in Hin | by apply list_elem_of_singleton in Hin]. }
    unfold subscribe_ctx. case_bool_decide as Hu; simpl.
    + split; [done|]. split; [|done]. intros _. split; [done|].
      exists (<["password" := [password a]]>
                (<["username" := [username a]]> ∅)).
      split; [done|]. split.
      * rewrite lookup_insert_ne by done. by rewrite lookup_insert_eq.
      * by rewrite lookup_insert_eq.
    + split; [done|]. split; [done|]. done.
  - intros ctx Hin.
    destruct (pub it); rewrite Hp in Hin;
      solve [by apply elem_of_nil in Hin | by apply list_elem_of_singleton in Hin].
Qed.

(** C8.  Neither session returns nil.  At every program point and for every
    answer of the libraries, a return of [publish] or [subscribe] carries a
    non-nil error; in every run of a pass that error is the wrapped failure
    of opening the stream, of a [Send], of [Recv], or it is the reason of
    the cancelled scope, [context.Canceled].  A target that closes its
    stream makes [Recv] return [io.EOF], which is an error return too. *)
Theorem sessions_return_errors (n : nat) evs it :
  run a (new_iteration n) evs = Some it →
  (∀ ctx ce conn (pc : pub_pc Msg) i r act,
     publish ctx ce conn pc i = Some (PubRet r, act) → is_Some r)
  ∧ (∀ ctx ce conn u pw tgt ps (pc : sub_pc Msg) i r act,
       subscribe ctx ce conn u pw tgt ps pc i = Some (SubRet r, act) →
       is_Some r)
  ∧ (∀ r, pub it = PubRet r → ∃ e, r = Some e ∧ publish_error e)
  ∧ (∀ r, sub it = SubRet r → ∃ e, r = Some e ∧ subscribe_error e)
  ∧ (sub it = SubRecv →
     ∃ it', step a it (Sub (SubRecvRet (inl EOF))) = Some it'
            ∧ sub it' = SubRet (Some (Errorf "error from Subscribe.Recv: "
                                             EOF))).
Proof.
  intros Hrun.
  destruct (run_pass_inv _ _ _ Hrun) as (_ & (_ & _ & Hp & Hs) & _).
  split.
  { intros ctx ce conn pc i r act H. unfold publish in H.
    destruct pc, i; try discriminate H;
      repeat match type of H with
             | context [bool_decide (is_Some ?c)] =>
                 destruct c; simpl in H; try discriminate H
             | context [match ?x with _ => _ end] =>
                 destruct x; simpl in H; try discriminate H
             end; by simplify_eq. }
  split.
  { intros ctx ce conn u pw tgt ps pc i r act H. unfold subscribe in H.
    destruct pc, i; try discriminate H;
      repeat match type of H with
             | context [bool_decide (is_Some ?c)] =>
                 destruct c; simpl in H; try discriminate H
             | context [match ?x with _ => _ end] =>
                 destruct x; simpl in H; try discriminate H
             end; by simplify_eq. }
  split; [intros r Hr; destruct (Hp r Hr) as (e & ? & ? & _); eauto|].
  split; [intros r Hr; destruct (Hs r Hr) as (e & ? & ? & _); eauto|].
  intros Hsub. destruct it as [k pp sp ce ee tr]; simpl in *; subst sp.
  unfold step; simpl. destruct ee; simpl; eexists; split; reflexivity.
Qed.

Lemma received_snoc (tr : list (action Msg)) act :
  received_from_target (tr ++ [act])
  = received_from_target tr ++
    match act with SubscribeRecv (inr resp) => [resp] | _ => [] end.
Proof.
  unfold received_from_target. rewrite omap_app. f_equal.
  by destruct act as [| | | | | | | |[]| |].
Qed.

Lemma sent_snoc (tr : list (action Msg)) act :
  sent_to_collector (tr ++ [act])
  = sent_to_collector tr ++
    match act with PublishSend m None => [m] | _ => [] end.
Proof.
  unfold sent_to_collector. rewrite omap_app. f_equal.
  by destruct act as [|? []| | | | | | | | |].
Qed.

Lemma sends_snoc (tr : list (action Msg)) act :
  publish_sends (tr ++ [act])
  = publish_sends tr ++ match act with PublishSend m _ => [m] | _ => [] end.
Proof.
  unfold publish_sends. rewrite omap_app. f_equal. by destruct act.
Qed.

Lemma takes_snoc (tr : list (action Msg)) act :
  publish_takes (tr ++ [act])
  = publish_takes tr ++ match act with PublishTake m => [m] | _ => [] end.
Proof.
  unfold publish_takes. rewrite omap_app. f_equal. by destruct act.
Qed.

Lemma gives_snoc (tr : list (action Msg)) act :
  subscribe_gives (tr ++ [act])
  = subscribe_gives tr ++ match act with SubscribeGive m => [m] | _ => [] end.
Proof.
  unfold subscribe_gives. rewrite omap_app. f_equal. by destruct act.
Qed.

Lemma requests_snoc (tr : list (action Msg)) act :
  subscribe_sends (tr ++ [act])
  = subscribe_sends tr ++
    match act with SubscribeSend r _ => [r] | _ => [] end.
Proof.
  unfold subscribe_sends. rewrite omap_app. f_equal. by destruct act.
Qed.

Ltac snoc_trace :=
  rewrite ?received_snoc, ?sent_snoc, ?sends_snoc, ?takes_snoc, ?gives_snoc,
    ?requests_snoc;
  simpl; rewrite ?app_nil_r.

Lemma step_conduit_inv it ev it' :
  request_inv a it → conduit_inv a it → step a it ev = Some it' →
  conduit_inv a it'.
Proof.
  destruct it as [n pp sp ce ee tr].
  intros Hq (Hh & Hs & Hp & Ho) H.
  unfold conduit_inv, request_inv in *. simpl in *. step_inv H.
  all: snoc_trace.
  all: destruct_and?; try rewrite Hq.
  all: split_and!; first [ done | congruence | by eauto
                         | by (right; eexists; f_equal)
                         | by (left; congruence) ].
Qed.

Lemma new_iteration_conduit n : conduit_inv a (new_iteration (Msg:=Msg) n).
Proof. unfold conduit_inv; simpl. split_and!; try done. by left. Qed.

Lemma run_conduit_inv n evs it :
  run a (new_iteration n) evs = Some it → conduit_inv a it.
Proof.
  intros Hrun.
  apply (run_invariant (λ it, pass_inv a n it ∧ conduit_inv a it)
           ) with (evs := evs) (it := new_iteration n) (it' := it);
    [| split; [apply new_iteration_inv | apply new_iteration_conduit]
     | exact Hrun ].
  clear. intros it ev it' [Hpass Hcond] Hstep. split.
  - destruct Hpass as (Hn & Hs & Hr & Hp & Hq & Hc & Hf).
    split_and!; eauto using step_scope_inv, step_relay_inv, step_publish_inv,
      step_request_inv, step_contexts_inv, step_publish_shape.
    by rewrite (step_pass _ _ _ Hstep).
  - destruct Hpass as (_ & _ & _ & _ & Hq & _).
    eauto using step_conduit_inv.
Qed.

(** C9.  In every run of a pass, [publish] takes from the channel exactly
    the messages [subscribe] handed to it, and what it has passed to
    [stream.Send] is, message for message and in order, what it has taken,
    short of the one it is about to send; so every message the channel
    delivered has gone to the collector stream as it was, and while
    [publish] runs every one of those sends was accepted (only a last send
    can have been refused, and then [publish] has returned).  The type of
    messages is arbitrary, so no field of one is read or written.  When both
    goroutines stand at their [select], the handoff gives [publish] the very
    message [subscribe] holds, and the next thing [publish] does is to send
    it.  No action reads the response side of the Publish stream, and apart
    from opening the stream every action of [publish] is a channel receive,
    a stream send or the cancellation case of its [select]. *)
Theorem publish_forwards_unmodified (n : nat) evs it :
  run a (new_iteration n) evs = Some it →
  publish_takes (trace it)
    = publish_sends (trace it) ++
      match pub it with PubSend response => [response] | _ => [] end
  ∧ (∀ act, act ∈ trace it → reads_response act = false)
  ∧ (∀ act, act ∈ trace it → by_publish act = true →
       loop_action act = true ∨ ∃ conn ctx err, act = CallPublish conn ctx err)
  ∧ (∀ response, pub it = PubSend response →
       ∀ err, ∃ it', step a it (Pub (PubSendRet err)) = Some it'
                     ∧ trace it' = trace it ++ [PublishSend response err])
  ∧ publish_takes (trace it) = subscribe_gives (trace it)
  ∧ subscribe_gives (trace it)
    = publish_sends (trace it) ++
      match pub it with PubSend response => [response] | _ => [] end
  ∧ (pub_returned it = false →
     publish_sends (trace it) = sent_to_collector (trace it))
  ∧ (publish_sends (trace it) = sent_to_collector (trace it)
     ∨ ∃ m, publish_sends (trace it) = sent_to_collector (trace it) ++ [m])
  ∧ (∀ resp, sub it = SubSelect resp → pub it = PubSelect →
       ∃ it', step a it Handoff = Some it'
              ∧ pub it' = PubSend resp ∧ sub it' = SubRecv
              ∧ trace it'
                = trace it ++ [SubscribeGive resp; PublishTake resp]).
Proof.
  intros Hrun.
  destruct (run_pass_inv _ _ _ Hrun) as (_ & _ & _ & Hp & _ & _ & Hf).
  destruct (run_conduit_inv _ _ _ Hrun) as (Hh & _ & Hsent & _).
  rewrite Forall_forall in Hf. unfold publish_inv in Hp.
  split; [exact Hp|].
  split; [intros act Hin; by destruct (Hf act Hin)|].
  split; [intros act Hin; by destruct (Hf act Hin)|].
  split.
  { intros response Hpub err.
    destruct it as [k pp sp ce ee tr]; simpl in *; subst pp.
    unfold step; simpl.
    destruct err, ee; simpl; eexists; split; reflexivity. }
  split; [exact Hh|].
  split; [by rewrite <- Hh|].
  split.
  { unfold pub_returned. intros Hret.
    destruct (pub it); try done. destruct Hsent; congruence. }
  split.
  { destruct (pub it); eauto. destruct Hsent; left; congruence. }
  intros resp Hsub Hpub.
  destruct it as [k pp sp ce ee tr]; simpl in *; subst pp sp.
  unfold step; simpl. eexists. split; [reflexivity|]. simpl.
  split; [done|]. split; [done|]. by rewrite <- app_assoc.
Qed.

Lemma step_after_return it ev it' :
  pub_returned it = true ∨ sub_returned it = true →
  step a it ev = Some it' →
  (pub_returned it' = true ∨ sub_returned it' = true)
  ∧ remaining it' < remaining it.
Proof.
  destruct it as [k pp sp ce ee tr]. unfold pub_returned, sub_returned.
  intros Hret H. simpl in *. step_inv H.
  all: unfold remaining; simpl; split; try lia; try tauto.
  all: destruct Hret as [Hret|Hret]; try discriminate Hret.
  all: try (destruct pp; simpl; first [ lia | discriminate Hret ]).
  all: try (destruct sp; simpl; first [ lia | discriminate Hret ]).
Qed.

Lemma run_after_return evs it it' :
  pub_returned it = true ∨ sub_returned it = true →
  run a it evs = Some it' → length evs + remaining it' ≤ remaining it.
Proof.
  revert it. induction evs as [|ev evs IH]; intros it Hret Hrun.
  - injection Hrun as <-. simpl. lia.
  - simpl in Hrun. destruct (step a it ev) as [it1|] eqn:Hs; [|done].
    destruct (step_after_return _ _ _ Hret Hs) as [Hret1 Hlt].
    specialize (IH it1 Hret1 Hrun). simpl in *. lia.
Qed.

(** C10.  A pass starts both goroutines at once.  In every run of it, a
    goroutine that has returned has left the scope cancelled, with
    [context.Canceled] as the reason.  From then on the other one, standing
    at its [select], can take one step only, the [ctx.Done()] case, and that
    step returns [context.Canceled]; wherever it stands, it can take at most
    four more steps.  [eg.Wait] returns only when both have returned. *)
Theorem cancellation_reaches_the_other (n : nat) evs it :
  run a (new_iteration n) evs = Some it →
  (pub (new_iteration (Msg:=Msg) n) = PubOpen
   ∧ sub (new_iteration (Msg:=Msg) n) = SubOpen)
  ∧ (pub_returned it = true ∨ sub_returned it = true →
     ctxErr it = Some Canceled)
  ∧ (sub_returned it = true → pub it = PubSelect →
     (∃ it', step a it (Pub PubCtxDone) = Some it'
             ∧ pub it' = PubRet (Some Canceled))
     ∧ ∀ ev it', step a it ev = Some it' → ev = Pub PubCtxDone)
  ∧ (pub_returned it = true → ∀ resp, sub it = SubSelect resp →
     (∃ it', step a it (Sub SubCtxDone) = Some it'
             ∧ sub it' = SubRet (Some Canceled))
     ∧ ∀ ev it', step a it ev = Some it' → ev = Sub SubCtxDone)
  ∧ (pub_returned it = true ∨ sub_returned it = true →
     ∀ evs' it', run a it evs' = Some it' → length evs' ≤ 4)
  ∧ (∀ pr : process Msg, cur pr = it →
       is_Some (main_step pr Wait) ↔ both_returned it = true).
Proof.
  intros Hrun.
  destruct (run_pass_inv _ _ _ Hrun) as (_ & (_ & He & Hp & Hs) & _).
  assert (Hcancel : pub_returned it = true ∨ sub_returned it = true →
                    ctxErr it = Some Canceled).
  { unfold pub_returned, sub_returned. intros [H|H].
    - destruct (pub it) as [| | |r] eqn:Hpc; try discriminate H.
      by destruct (Hp r eq_refl) as (? & _ & _ & ?).
    - destruct (sub it) as [| | | |r] eqn:Hpc; try discriminate H.
      by destruct (Hs r eq_refl) as (? & _ & _ & ?). }
  split; [done|]. split; [exact Hcancel|].
  split; [|split; [|split; [|]]].
  - intros Hsub Hpub. specialize (Hcancel (or_intror Hsub)).
    clear Hrun He Hp Hs. unfold sub_returned in Hsub.
    destruct it as [k pp sp ce ee tr]; simpl in *; subst. split.
    + unfold step; simpl. destruct ee; simpl; eexists; split; reflexivity.
    + intros ev it' H. destruct sp; try discriminate Hsub.
      by step_inv H.
  - intros Hpub resp Hsub. specialize (Hcancel (or_introl Hpub)).
    clear Hrun He Hp Hs. unfold pub_returned in Hpub.
    destruct it as [k pp sp ce ee tr]; simpl in *; subst. split.
    + unfold step; simpl. destruct ee; simpl; eexists; split; reflexivity.
    + intros ev it' H. destruct pp; try discriminate Hpub.
      by step_inv H.
  - intros Hret evs' it' Hrun'.
    pose proof (run_after_return _ _ _ Hret Hrun') as Hlen.
    assert (remaining it ≤ 4); [|lia].
    unfold remaining, pub_returned, sub_returned in *.
    destruct Hret as [H|H].
    + destruct (pub it); try discriminate H. destruct (sub it); simpl; lia.
    + destruct (sub it); try discriminate H. destruct (pub it); simpl; lia.
  - intros pr <-. unfold main_step.
    destruct (both_returned (cur pr)); split; intros H; done.
Qed.

(** X7.  In every run of a pass, cancelled or not, what the collector has
    accepted is an initial part of what the target has delivered, in the
    same order, and at most two delivered updates are missing from it: a
    failing pass loses no more than the update [publish] was sending and the
    one [subscribe] was holding. *)
Theorem collector_gets_a_prefix (n : nat) evs it :
  run a (new_iteration n) evs = Some it →
  ∃ lost, received_from_target (trace it)
          = sent_to_collector (trace it) ++ lost
          ∧ length lost ≤ 2.
Proof.
  intros Hrun.
  destruct (run_pass_inv _ _ _ Hrun) as (_ & _ & _ & Hp & _).
  destruct (run_conduit_inv _ _ _ Hrun) as (Hh & Hs & Hsent & _).
  unfold publish_inv in Hp.
  assert (Ht1 : ∃ t1, received_from_target (trace it)
                      = subscribe_gives (trace it) ++ t1 ∧ length t1 ≤ 1).
  { destruct (sub it) as [| | |resp|r].
    - destruct Hs as [-> ->]. exists []. simpl. split; [done|lia].
    - destruct Hs as [-> ->]. exists []. simpl. split; [done|lia].
    - exists []. rewrite app_nil_r. simpl. split; [done|lia].
    - exists [resp]. simpl. split; [done|lia].
    - destruct Hs as [Hs|[resp Hs]].
      + exists []. rewrite app_nil_r. simpl. split; [done|lia].
      + exists [resp]. simpl. split; [done|lia]. }
  assert (Ht3 : ∃ t3, publish_takes (trace it)
                      = sent_to_collector (trace it) ++ t3 ∧ length t3 ≤ 1).
  { rewrite Hp. destruct (pub it) as [| |response|r].
    - destruct Hsent as [-> ->]. exists []. simpl. split; [done|lia].
    - rewrite Hsent. exists []. simpl. split; [done|lia].
    - rewrite Hsent. exists [response]. simpl. split; [done|lia].
    - rewrite app_nil_r. destruct Hsent as [Hsent|[m Hsent]]; rewrite Hsent.
      + exists []. rewrite app_nil_r. simpl. split; [done|lia].
      + exists [m]. simpl. split; [done|lia]. }
  destruct Ht1 as (t1 & Hrecv & Hl1). destruct Ht3 as (t3 & Htake & Hl3).
  exists (t3 ++ t1). split.
  - by rewrite Hrecv, <- Hh, Htake, app_assoc.
  - rewrite length_app. lia.
Qed.

(** X8.  In every run of a pass, no update is received from the target
    before the subscription request has gone out on a stream opened with the
    context of the session, and [publish] takes no message from the channel
    before it has opened its own stream. *)
Theorem request_before_updates (n : nat) evs it :
  run a (new_iteration n) evs = Some it →
  (received_from_target (trace it) ≠ [] →
   subscribe_sends (trace it)
     = [subscribe_request (target a) (paths a)]
   ∧ subscribe_contexts (trace it)
     = [subscribe_ctx {| scope := n; outgoing := None |}
          (username a) (password a)])
  ∧ (publish_takes (trace it) ≠ [] →
     publish_contexts (trace it) = [{| scope := n; outgoing := None |}]).
Proof.
  intros Hrun.
  destruct (run_pass_inv _ _ _ Hrun) as (Hn & _ & _ & Hp & _ & [Hcs Hcp] & _).
  destruct (run_conduit_inv _ _ _ Hrun) as (_ & Hs & Hsent & Ho).
  unfold publish_inv, iteration_ctx in *. rewrite Hn in *. split.
  - intros Hne. split; [by destruct Ho|].
    destruct (sub it); try done. by destruct Hs.
  - intros Hne. destruct (pub it); try done.
    destruct Hsent as [Hsent _]. rewrite Hsent in Hp. done.
Qed.

End BridgeProperties.

(** ** The retry loop *)

Section LoopProperties.

Variable Msg : Type.

Implicit Types (pr : process Msg) (st : status Msg).

Lemma main_run_app st (evs1 evs2 : list (main_event Msg)) :
  main_run st (evs1 ++ evs2) = st' ← main_run st evs1; main_run st' evs2.
Proof.
  revert st. induction evs1 as [|ev evs1 IH]; intros st; simpl; [done|].
  destruct st as [pr|fatal]; [|done].
  destruct (main_step pr ev); simpl; [apply IH|done].
Qed.

Lemma main_step_looping pr ev st :
  pass_reachable pr → main_step pr ev = Some st →
  ∃ pr', st = Looping pr' ∧ args pr' = args pr ∧ pass_reachable pr'.
Proof.
  intros [evs Hevs] Hstep. destruct ev as [e|]; simpl in Hstep.
  - destruct (step (args pr) (cur pr) e) as [it|] eqn:Hs; [|done].
    injection Hstep as <-. eexists; split; [done|]. split; [done|].
    exists (evs ++ [e]). simpl.
    rewrite (step_pass _ _ _ _ _ Hs), run_app, Hevs. simpl. by rewrite Hs.
  - destruct (both_returned (cur pr)); [|done].
    injection Hstep as <-. eexists; split; [done|]. split; [done|].
    by exists [].
Qed.

Lemma main_run_looping (evs : list (main_event Msg)) pr st :
  pass_reachable pr → main_run (Looping pr) evs = Some st →
  ∃ pr', st = Looping pr' ∧ args pr' = args pr ∧ pass_reachable pr'.
Proof.
  revert pr. induction evs as [|ev evs IH]; intros pr Hreach Hrun.
  - injection Hrun as <-. eauto.
  - simpl in Hrun. destruct (main_step pr ev) as [st1|] eqn:Hs; [|done].
    destruct (main_step_looping _ _ _ Hreach Hs) as (pr1 & -> & Ha & Hr1).
    destruct (IH pr1 Hr1 Hrun) as (pr' & -> & Ha' & Hr').
    exists pr'. split; [done|]. split; [congruence|done].
Qed.

Lemma failing_passes_run (e : error) (n : nat) pr (k : nat) :
  cur pr = new_iteration k →
  ∃ pr', main_run (Looping pr) (failing_passes e n) = Some (Looping pr')
         ∧ args pr' = args pr
         ∧ cur pr' = new_iteration (k + n)
         ∧ length (glog pr') = length (glog pr) + n.
Proof.
  revert pr k. induction n as [|n IH]; intros pr k Hcur.
  - exists pr. rewrite Nat.add_0_r. by rewrite Nat.add_0_r.
  - destruct pr as [ar gl it]. simpl in Hcur. subst it.
    set (pr1 := {| args := ar;
                   glog := gl ++ ["encountered error, retrying: " +:+
                                  Error (Errorf "error from Publish: " e)];
                   cur := new_iteration (Msg:=Msg) (S k) |}).
    destruct (IH pr1 (S k) eq_refl) as (pr' & Hrun & Ha & Hc & Hl).
    exists pr'. split; [|split; [done|split]].
    + change (failing_passes (Msg:=Msg) e (S n))
        with (failing_pass (Msg:=Msg) e ++ failing_passes e n).
      rewrite main_run_app.
      assert (Hone : main_run
                (Looping {| args := ar; glog := gl; cur := new_iteration k |})
                (failing_pass e) = Some (Looping pr1)) by reflexivity.
      rewrite Hone. exact Hrun.
    + rewrite Hc. f_equal. lia.
    + rewrite Hl. subst pr1. simpl. rewrite length_app. simpl. lia.
Qed.

(** When start-up succeeds, [main] enters the loop at pass 0 with an empty
    log and the flag values as the arguments of the sessions. *)
Lemma main_start_looping env dial (f : Flags) pr :
  (main_start env dial f).2 = Looping pr →
  cur pr = new_iteration 0 ∧ glog pr = []
  ∧ username (args pr) = flag_username f
  ∧ password (args pr) = flag_password f
  ∧ target (args pr) = flag_target_value f
  ∧ paths (args pr) = p (flag_subscribe f).
Proof.
  unfold main_start.
  repeat match goal with
         | |- context [match outcome ?m with inl _ => _ | inr _ => _ end] =>
             destruct (outcome m)
         end; simpl; intros H; try discriminate H.
  by injection H as <-.
Qed.

(** C7.  From the first pass on, whatever happens inside the passes:
    [main] is still in its loop, there is no step that exits; when both
    goroutines of a pass have returned, the errgroup holds a non-nil error,
    [eg.Wait] returns it, one line is logged for it and the next pass starts
    at once from scratch, with its own scope and channel, both goroutines at
    their first statement and the scope not cancelled; until both have
    returned [eg.Wait] does not return.  There is no bound on the number of
    passes: [n] failing passes in a row lead to pass [n] after the first. *)
Theorem retry_loop_never_exits pr0 (k : nat) :
  cur pr0 = new_iteration k →
  (∀ evs st, main_run (Looping pr0) evs = Some st →
     ∃ pr, st = Looping pr ∧ args pr = args pr0
       ∧ (both_returned (cur pr) = true →
          ∃ e, egErr (cur pr) = Some e
             ∧ main_step pr Wait
               = Some (Looping
                   {| args := args pr;
                      glog := glog pr ++
                        ["encountered error, retrying: " +:+ Error e];
                      cur := new_iteration (S (pass (cur pr))) |}))
       ∧ (both_returned (cur pr) = false → main_step pr Wait = None))
  ∧ (∀ pr ev st, main_step pr ev = Some st → ∃ pr', st = Looping pr')
  ∧ (∀ e n, ∃ pr,
       main_run (Looping pr0) (failing_passes e n) = Some (Looping pr)
       ∧ cur pr = new_iteration (k + n)
       ∧ length (glog pr) = length (glog pr0) + n).
Proof.
  intros Hcur. split; [|split].
  - intros evs st Hrun.
    assert (Hreach : pass_reachable pr0).
    { exists []. by rewrite Hcur. }
    destruct (main_run_looping _ _ _ Hreach Hrun) as (pr & -> & Ha & [es Hes]).
    exists pr. split; [done|]. split; [done|]. split.
    + intros Hboth. unfold main_step. rewrite Hboth.
      destruct (run_pass_inv _ _ _ _ _ Hes) as (_ & (Hc & He & Hp & _) & _).
      unfold both_returned in Hboth.
      destruct (pub (cur pr)) as [| | |r] eqn:Hpub; try discriminate Hboth.
      destruct (Hp r eq_refl) as (_ & _ & _ & Hce).
      destruct (egErr (cur pr)) as [e|] eqn:Hee.
      * by exists e.
      * rewrite (proj1 He eq_refl) in Hce. discriminate Hce.
    + intros Hboth. unfold main_step. by rewrite Hboth.
  - intros pr ev st Hstep. destruct ev as [e|]; simpl in Hstep.
    + destruct (step (args pr) (cur pr) e); [|done].
      injection Hstep as <-. eauto.
    + destruct (both_returned (cur pr)); [|done].
      injection Hstep as <-. eauto.
  - intros e n.
    destruct (failing_passes_run e n pr0 k Hcur) as (pr & H1 & _ & H2 & H3).
    eauto.
Qed.

End LoopProperties.

(** ** The theorems at the sample inputs *)

Lemma sample_run_reaches :
  run sample_args (new_iteration 0) sample_run = Some sample_state.
Proof. vm_compute. reflexivity. Qed.

Lemma closing_run_reaches :
  run sample_args (new_iteration 0) closing_run = Some closing_state.
Proof. vm_compute. reflexivity. Qed.

Lemma relay_is_identity_witness :
  ∃ it, run sample_args (new_iteration 0) sample_run = Some it
        ∧ received_from_target (trace it)
          = sent_to_collector (trace it) ++ in_flight it.
Proof.
  exists sample_state. split; [exact sample_run_reaches|].
  exact (proj1 (relay_is_identity nat sample_args 0 sample_run _
                  sample_run_reaches eq_refl)).
Defined.

Lemma subscribe_sends_one_request_witness :
  ∃ it, run sample_args (new_iteration 0) sample_run = Some it
        ∧ (subscribe_sends (trace it) = []
           ∨ subscribe_sends (trace it)
             = [subscribe_request "leaf1" [counters; counters]]).
Proof.
  exists sample_state. split; [exact sample_run_reaches|].
  exact (proj1 (proj2 (proj2
    (subscribe_sends_one_request nat sample_args 0 sample_run _
       sample_run_reaches)))).
Defined.

Lemma metadata_on_subscribe_only_witness :
  ∃ it, run sample_args (new_iteration 0) sample_run = Some it
        ∧ ∀ ctx, ctx ∈ publish_contexts (trace it) →
                 ctx = {| scope := 0; outgoing := None |}.
Proof.
  exists sample_state. split; [exact sample_run_reaches|].
  exact (proj2
    (metadata_on_subscribe_only nat sample_args 0 sample_run _
       sample_run_reaches)).
Defined.

Lemma sessions_return_errors_witness :
  ∃ it, run sample_args (new_iteration 0) closing_run = Some it
        ∧ ∀ r, sub it = SubRet r → ∃ e, r = Some e ∧ subscribe_error e.
Proof.
  exists closing_state. split; [exact closing_run_reaches|].
  exact (proj1 (proj2 (proj2 (proj2
    (sessions_return_errors nat sample_args 0 closing_run _
       closing_run_reaches))))).
Defined.

Lemma publish_forwards_unmodified_witness :
  ∃ it, run sample_args (new_iteration 0) sample_run = Some it
        ∧ (∀ act, act ∈ trace it → reads_response act = false)
        ∧ publish_takes (trace it) = subscribe_gives (trace it)
        ∧ subscribe_gives (trace it)
          = publish_sends (trace it) ++
            match pub it with PubSend response => [response] | _ => [] end
        ∧ subscribe_gives (trace it) = [1; 2]
        ∧ sent_to_collector (trace it) = [1; 2].
Proof.
  exists sample_state. split; [exact sample_run_reaches|].
  destruct (publish_forwards_unmodified nat sample_args 0 sample_run _
              sample_run_reaches) as (_ & Hread & _ & _ & Htake & Hgive & _).
  split; [exact Hread|]. split; [exact Htake|]. split; [exact Hgive|].
  split; reflexivity.
Defined.

Lemma cancellation_reaches_the_other_witness :
  ∃ it, run sample_args (new_iteration 0) closing_run = Some it
        ∧ ∃ it', step sample_args it (Pub PubCtxDone) = Some it'
                 ∧ pub it' = PubRet (Some Canceled).
Proof.
  exists closing_state. split; [exact closing_run_reaches|].
  exact (proj1 (proj1 (proj2 (proj2
    (cancellation_reaches_the_other nat sample_args 0 closing_run _
       closing_run_reaches))) eq_refl eq_refl)).
Defined.

Lemma retry_loop_never_exits_witness :
  ∃ pr, main_run (Looping sample_process) (failing_passes EOF 3)
        = Some (Looping pr)
        ∧ cur pr = new_iteration 3 ∧ length (glog pr) = 3.
Proof.
  exact (proj2 (proj2 (retry_loop_never_exits nat sample_process 0 eq_refl))
           EOF 3).
Defined.

Lemma collector_gets_a_prefix_witness :
  ∃ lost, received_from_target (trace closing_state)
          = sent_to_collector (trace closing_state) ++ lost
          ∧ length lost ≤ 2.
Proof.
  exact (collector_gets_a_prefix nat sample_args 0 closing_run _
           closing_run_reaches).
Defined.

Lemma request_before_updates_witness :
  subscribe_sends (trace sample_state)
  = [subscribe_request "leaf1" [counters; counters]]
  ∧ publish_contexts (trace sample_state)
    = [{| scope := 0; outgoing := None |}].
Proof.
  destruct (request_before_updates nat sample_args 0 sample_run _
              sample_run_reaches) as [Hsub Hpub].
  split.
  - apply Hsub. discriminate.
  - apply Hpub. discriminate.
Defined.

(** The sample run, evaluated: three updates came in, two went out, the
    third is held by [subscribe]. *)
Example sample_run_relayed :
  (λ it, (received_from_target (trace it), sent_to_collector (trace it),
          in_flight it))
    <$> run sample_args (new_iteration 0) sample_run
  = Some ([1; 2; 3], [1; 2], [3]).
Proof. reflexivity. Qed.

(** The request of the sample run: two entries for the path given twice. *)
Example sample_request :
  subscribe_request "leaf1" [counters; counters]
  = SubscribeRequest_Subscribe
      {| Prefix := Some {| Origin := ""; Elem := []; Target := "leaf1" |};
         Subscription_ :=
           [ {| Subscription_Path := Some counters;
                Mode := SubscriptionMode_TARGET_DEFINED |};
             {| Subscription_Path := Some counters;
                Mode := SubscriptionMode_TARGET_DEFINED |} ] |}.
Proof. reflexivity. Qed.

(** A goroutine that is inside a library call when the scope is cancelled
    sees the cancellation only through what the call returns: here
    [publish] fails to open its stream and [subscribe], waiting in [Recv],
    returns the wrapped error of [Recv]. *)
Example recv_fails_after_cancel :
  (λ it, (pub it, sub it, ctxErr it))
    <$> run sample_args (new_iteration 0)
          [ Sub (SubscribeRet None); Sub (SubSendRet None);
            Pub (PublishRet (Some (rpcError "unavailable")));
            Sub (SubRecvRet (inl (rpcError "context canceled"))) ]
  = Some (PubRet (Some (errorString
                    "error from Publish: rpc error: unavailable")),
          SubRet (Some (errorString
                    "error from Subscribe.Recv: rpc error: context canceled")),
          Some Canceled)
    :> option (pub_pc nat * sub_pc nat * option error).
Proof. reflexivity. Qed.

(** Three failing passes, evaluated: the log holds one line per pass and
    the loop stands at the start of pass 3. *)
Example three_failing_passes :
  main_run (Looping sample_process) (failing_passes EOF 3)
  = Some (Looping
      {| args := sample_args;
         glog := replicate 3
           "encountered error, retrying: error from Publish: EOF";
         cur := new_iteration 3 |}).
Proof. reflexivity. Qed.

(** ** The [-subscribe] flag *)

Lemma append_assoc (s1 s2 s3 : string) :
  (s1 +:+ s2) +:+ s3 = s1 +:+ s2 +:+ s3.
Proof.
  induction s1 as [|c s1 IH]; [done|].
  change (String c ((s1 +:+ s2) +:+ s3) = String c (s1 +:+ s2 +:+ s3)).
  by rewrite IH.
Qed.

Lemma Join_snoc (elems : list string) (x sep : string) :
  elems ≠ [] → Join (elems ++ [x]) sep = Join elems sep +:+ sep +:+ x.
Proof.
  induction elems as [|s [|s' rest] IH]; intros Hne; [done| |].
  - reflexivity.
  - change (s +:+ sep +:+ Join ((s' :: rest) ++ [x]) sep
            = (s +:+ sep +:+ Join (s' :: rest) sep) +:+ sep +:+ x).
    rewrite IH by done. by rewrite !append_assoc.
Qed.

(** Filling the slots one by one leaves the image of the path list. *)
Lemma fill_from_map (StrPath : Path → string) (ps : list Path)
    (done_ : list string) :
  fill_from StrPath (length done_) ps (done_ ++ replicate (length ps) "")
  = done_ ++ (StrPath <$> ps).
Proof.
  revert done_. induction ps as [|p0 ps IH]; intros done_; simpl; [done|].
  rewrite <- (Nat.add_0_r (length done_)) at 2. rewrite insert_app_r. simpl.
  replace (S (length done_)) with (length (done_ ++ [StrPath p0]))
    by (rewrite length_app; simpl; lia).
  specialize (IH (done_ ++ [StrPath p0])).
  rewrite <- !app_assoc in IH. exact IH.
Qed.


(** X2.  [String] of a nil receiver is the empty string; otherwise it is the
    texts of the paths joined by a comma and a space.  After a [Set] that
    succeeded it is the text of the new path alone if there was no path
    before, and the former text, the separator and the text of the new path
    otherwise; after a [Set] that failed it is unchanged. *)
Theorem multiPath_String_after_Set (StrPath : Path → string)
    (parse : string → error + Path) (m : multiPath) (s : string) :
  multiPath_String StrPath None = ""
  ∧ multiPath_String StrPath (Some m) = Join (StrPath <$> p m) ", "
  ∧ (∀ g, parse s = inr g →
       multiPath_String StrPath (Some (multiPath_Set parse m s).1)
       = match p m with
         | [] => StrPath g
         | _ :: _ => multiPath_String StrPath (Some m) +:+ ", " +:+ StrPath g
         end)
  ∧ (∀ err, parse s = inl err →
       multiPath_String StrPath (Some (multiPath_Set parse m s).1)
       = multiPath_String StrPath (Some m)).
Proof.
  assert (Hstr : ∀ m', multiPath_String StrPath (Some m')
                       = Join (StrPath <$> p m') ", ").
  { intros m'. unfold multiPath_String. cbn zeta. f_equal.
    exact (fill_from_map StrPath (p m') []). }
  split; [done|]. split; [apply Hstr|]. split.
  - intros g Hg. rewrite !Hstr. unfold multiPath_Set. rewrite Hg. simpl.
    rewrite fmap_app. simpl. destruct (p m) as [|p0 ps]; [done|].
    by rewrite Join_snoc.
  - intros err Herr. unfold multiPath_Set. by rewrite Herr.
Qed.

(** ** More on the credential builder and on start-up *)

Ltac solve_sublist :=
  repeat first
    [ apply sublist_nil_l | apply sublist_skip | apply sublist_cons ].

(** X3.  Without a certificate path the key path is ignored: the result and
    the files read are the same whatever the key path is, no file is read
    beyond the CA file, and an option that is returned carries no client
    certificate. *)
Theorem newTLSConfig_key_without_cert (env : Env) (useTLS skipVerify : bool)
    (keyFile keyFile' caFile : string) :
  newTLSConfig env useTLS skipVerify "" keyFile caFile
  = newTLSConfig env useTLS skipVerify "" keyFile' caFile
  ∧ effects (newTLSConfig env useTLS skipVerify "" keyFile caFile)
      `prefix_of` [ReadFile caFile]
  ∧ ∀ creds,
      outcome (newTLSConfig env useTLS skipVerify "" keyFile caFile)
      = inr (WithTransportCredentials creds) →
      Certificates creds = [].
Proof.
  split; [reflexivity|]. split.
  - destruct useTLS, skipVerify; unfold_io;
      crunch_io; try apply prefix_nil; reflexivity.
  - destruct useTLS, skipVerify; unfold_io; crunch_io.
    all: match goal with H : inr _ = inr _ |- _ => by injection H as <- end.
Qed.

(** X4.  With TLS enabled, both a certificate and a key path given, and no
    CA file to load (skip-verify set or no CA path): the certificate file is
    read first and a failure to read it is returned without touching the key
    file; then the key file is read; then the two are paired, and the pair
    becomes the only client certificate of the returned option. *)
Theorem newTLSConfig_key_pair (env : Env) (skipVerify : bool)
    (certFile keyFile caFile : string) :
  certFile ≠ "" → keyFile ≠ "" → skipVerify = true ∨ caFile = "" →
  let r := newTLSConfig env true skipVerify certFile keyFile caFile in
  match fs_ReadFile env certFile with
  | inl err => r = ([ReadFile certFile], inl err)
  | inr certPEM =>
      match fs_ReadFile env keyFile with
      | inl err => r = ([ReadFile certFile; ReadFile keyFile], inl err)
      | inr keyPEM =>
          match tls_X509KeyPair env certPEM keyPEM with
          | inl err => r = ([ReadFile certFile; ReadFile keyFile], inl err)
          | inr cert =>
              r = ([ReadFile certFile; ReadFile keyFile],
                   inr (WithTransportCredentials
                          {| InsecureSkipVerify := skipVerify;
                             RootCAs := None;
                             Certificates := [cert] |}))
          end
      end
  end.
Proof.
  intros Hc Hk Hca. cbn zeta.
  assert (Hbody : ∀ sv ca, sv = true ∨ ca = "" →
    newTLSConfig env true sv certFile keyFile ca
    = match fs_ReadFile env certFile with
      | inl err => ([ReadFile certFile], inl err)
      | inr certPEM =>
          match fs_ReadFile env keyFile with
          | inl err => ([ReadFile certFile; ReadFile keyFile], inl err)
          | inr keyPEM =>
              match tls_X509KeyPair env certPEM keyPEM with
              | inl err => ([ReadFile certFile; ReadFile keyFile], inl err)
              | inr cert =>
                  ([ReadFile certFile; ReadFile keyFile],
                   inr (WithTransportCredentials
                          {| InsecureSkipVerify := sv; RootCAs := None;
                             Certificates := [cert] |}))
              end
          end
      end).
  { intros sv ca Hsv. unfold_io.
    rewrite (bool_decide_eq_true_2 _ Hc), (bool_decide_eq_false_2 _ Hk).
    destruct sv; simpl.
    - destruct (fs_ReadFile env certFile); simpl; [done|].
      destruct (fs_ReadFile env keyFile); simpl; [done|].
      by destruct (tls_X509KeyPair env _ _).
    - destruct Hsv as [? | ->]; [done|]. simpl.
      destruct (fs_ReadFile env certFile); simpl; [done|].
      destruct (fs_ReadFile env keyFile); simpl; [done|].
      by destruct (tls_X509KeyPair env _ _). }
  rewrite (Hbody skipVerify caFile Hca).
  destruct (fs_ReadFile env certFile); [done|].
  destruct (fs_ReadFile env keyFile); [done|].
  by destruct (tls_X509KeyPair env _ _).
Qed.

(** X5.  Whatever its arguments, [newTLSConfig] only reads files, at most
    the CA file, the certificate file and the key file, in that order, and
    never dials.  With TLS enabled an option that is returned is a TLS one,
    its [InsecureSkipVerify] is the skip-verify argument, it holds at most
    one client certificate, and it has a root set of its own only when
    verification is on and a CA path was given. *)
Theorem newTLSConfig_effects (env : Env) (useTLS skipVerify : bool)
    (certFile keyFile caFile : string) :
  let r := newTLSConfig env useTLS skipVerify certFile keyFile caFile in
  effects r `sublist_of` [ReadFile caFile; ReadFile certFile; ReadFile keyFile]
  ∧ Forall (λ op, is_network op = false) (effects r)
  ∧ (useTLS = true → ∀ opt, outcome r = inr opt →
     ∃ creds, opt = WithTransportCredentials creds
       ∧ InsecureSkipVerify creds = skipVerify
       ∧ length (Certificates creds) ≤ 1
       ∧ (is_Some (RootCAs creds) → skipVerify = false ∧ caFile ≠ "")).
Proof.
  cbn zeta.
  assert (Hsub : effects (newTLSConfig env useTLS skipVerify certFile keyFile
                            caFile)
                 `sublist_of` [ReadFile caFile; ReadFile certFile;
                               ReadFile keyFile]).
  { destruct useTLS, skipVerify; unfold_io; crunch_io; solve_sublist. }
  split; [exact Hsub|]. split.
  - rewrite Forall_forall. intros op Hin.
    apply (sublist_subseteq _ _ Hsub) in Hin.
    rewrite !elem_of_cons in Hin.
    destruct Hin as [-> | [-> | [-> | Hin]]]; [done..|].
    by apply elem_of_nil in Hin.
  - intros ->. destruct skipVerify; unfold_io; crunch_io.
    all: match goal with
         | H : inr _ = inr _ |- _ => injection H as <-
         | _ => idtac
         end; simpl in *; try lia; try done.
    all: try match goal with H : is_Some None |- _ =>
               by apply is_Some_None in H end.
Qed.

(** X6.  Start-up dials the collector first, with the option the builder
    returned, and the target second, always with [grpc.WithInsecure()]
    whatever the TLS flags are.  When the builder fails nothing is dialled;
    when the collector cannot be dialled the target is not; in each case
    [main] exits.  When both dials succeed the loop starts with these two
    connections. *)
Theorem main_start_dials (Msg : Type) (env : Env)
    (dial : string → DialOption → option error) (f : Flags) :
  let tls := newTLSConfig env (flag_collector_tls f)
               (flag_collector_tls_skipverify f) (flag_collector_certfile f)
               (flag_collector_keyfile f) (flag_collector_cafile f) in
  let collector := flag_collector_addr f in
  let tgt := flag_target_addr f in
  let start := main_start (Msg:=Msg) env dial f in
  match outcome tls with
  | inl err => start = (effects tls, Exited (Error err))
  | inr opt =>
      match dial collector opt with
      | Some err =>
          start.1 = effects tls ++ [Dial collector]
          ∧ ∃ fatal, start.2 = Exited fatal
      | None =>
          start.1 = effects tls ++ [Dial collector; Dial tgt]
          ∧ match dial tgt WithInsecure with
            | Some err => ∃ fatal, start.2 = Exited fatal
            | None =>
                ∃ pr, start.2 = Looping pr
                  ∧ destConn (args pr)
                    = {| cc_target := collector; cc_option := opt |}
                  ∧ targetConn (args pr)
                    = {| cc_target := tgt; cc_option := WithInsecure |}
            end
      end
  end.
Proof.
  cbn zeta. unfold main_start, grpc_Dial.
  destruct (outcome (newTLSConfig _ _ _ _ _ _)) as [err|opt]; [done|].
  unfold outcome at 1, effects at 2. simpl.
  destruct (dial (flag_collector_addr f) opt) as [err|]; simpl.
  { split; [done|]. by eexists. }
  unfold outcome, effects. simpl.
  destruct (dial (flag_target_addr f) WithInsecure) as [err|]; simpl.
  { split; [done|]. by eexists. }
  split; [done|]. eexists. split; [reflexivity|]. done.
Qed.

(** ** The remaining theorems at sample inputs *)


Lemma multiPath_String_after_Set_witness :
  multiPath_String sample_StrPath
    (Some (multiPath_Set sample_parse {| p := [counters] |} "a").1)
  = "/interfaces/interface/state/counters, /a".
Proof.
  exact (proj1 (proj2 (proj2
    (multiPath_String_after_Set sample_StrPath sample_parse
       {| p := [counters] |} "a"))) _ eq_refl).
Defined.

Lemma newTLSConfig_key_pair_witness :
  newTLSConfig pem_files true true "client.crt" "client.key" ""
  = ([ReadFile "client.crt"; ReadFile "client.key"],
     inr (WithTransportCredentials
            {| InsecureSkipVerify := true; RootCAs := None;
               Certificates :=
                 [ {| Certificate_chain := [[Byte.x2d]];
                      PrivateKey := [Byte.x2d] |} ] |})).
Proof.
  refine (newTLSConfig_key_pair pem_files true "client.crt" "client.key" ""
            _ _ _); [done|done|by left].
Defined.
